(** * ThreadPool: a fixed-size worker pool (thrdPool.h, example.cpp)

    The pool of [thrdPool.h] is embedded as a labelled transition system.
    Every critical section of the source (the code between taking
    [queue_mutex] and releasing it) is one atomic step, and so is every
    call that touches the condition variable; the operating system's
    choices (which thread runs next, which waiter [notify_one] wakes,
    which address [make_shared] returns) are carried by the label of the
    step.  Statements that touch only the data of the thread that runs
    them (lines 102-107 of [enqueue]) belong to the step that follows
    them.  The step function is executable.

    The steps cover the pool from the end of its constructor to the
    return of the body of its destructor (line 145).  What the
    destruction of the members does after that, to the queue and to
    the futures of the tasks still in it, is [destroy_members]. *)

From stdpp Require Import base option list gmap strings.
From Stdlib Require Import ZArith.

(** ** Callables, packaged tasks and futures *)

(** What C++ code can throw here: [std::runtime_error] (line 115),
    [std::future_error] (raised by the standard library), or any value a
    submitted callable throws. *)
Inductive exception :=
  | runtime_error (what : string)
  | future_error (what : string)
  | thrown (payload : Z).

(** How one call of a submitted callable ends. *)
Inductive completion (R : Type) :=
  | Returns (v : R)
  | Throws (e : exception)
  | Diverges.
Arguments Returns {R} v.
Arguments Throws {R} e.
Arguments Diverges {R}.

(** The shared state of a [std::packaged_task] / [std::future] pair. *)
Inductive shared_state (R : Type) :=
  | Pending
  | HasValue (v : R)
  | HasException (e : exception).
Arguments Pending {R}.
Arguments HasValue {R} v.
Arguments HasException {R} e.

(** What [future::get] does for its caller. *)
Inductive get_result (R : Type) :=
  | Blocks
  | Yields (v : R)
  | Rethrows (e : exception).
Arguments Blocks {R}.
Arguments Yields {R} v.
Arguments Rethrows {R} e.

(** The thread of one worker, by the line of the lambda (lines 55-84) it
    is at. *)
Inductive worker :=
  | Contending              (* lines 63-69: needs the lock to test the predicate *)
  | Waiting                 (* blocked inside [condition.wait], lock released *)
  | Executing (task : nat)  (* line 82: inside [task()], lock released *)
  | Exited                  (* line 73: the lambda has returned *)
  | Crashed.                (* an exception left the lambda, or undefined behaviour *)

(** Where the destructor (lines 130-145) is. *)
Inductive lifecycle :=
  | Constructed             (* the destructor has not started *)
  | Stopping                (* line 135 done, [notify_all] not yet called *)
  | Joining (k : nat)       (* lines 142-143: workers before [k] are joined *)
  | Returned.               (* line 145: its body has returned, the members
                               are still to be destroyed *)

#[global] Instance worker_eq_dec : EqDecision worker.
Proof. solve_decision. Defined.

#[global] Instance lifecycle_eq_dec : EqDecision lifecycle.
Proof. solve_decision. Defined.

(** The outcome of one pass of a worker through its critical section. *)
Inductive pulled :=
  | Sleep                   (* predicate false: stay inside [wait] *)
  | Terminate               (* line 73 *)
  | Task (t : nat) (rest : list nat)   (* lines 77-78 *)
  | Undefined.              (* [front] of an empty queue *)

Section Model.
Context {R : Type}.

(** [std::bind(f, args...)]: a callable without parameters. *)
Definition callable : Type := unit → completion R.
Definition std_bind {A : Type} (f : A → completion R) (args : A) : callable :=
  λ _, f args.

(** [std::packaged_task<return_type()>] with the shared state it owns.
    The packaged task is freed with its last owner: the local [task] of
    the worker (line 59) at the end of the iteration that ran it, or the
    queue when the pool dies.  The shared state lives on for the future,
    and the record stays in the heap as that shared state: no step reads
    [callee] once [result] is set. *)
Record packaged_task := {
  callee : callable;
  result : shared_state R
}.

(** How a call of [packaged_task::operator()] ends for the caller. *)
Inductive invocation :=
  | Completed (p : packaged_task)
  | NeverReturns
  | Escapes (e : exception).

(** Calling the packaged task (line 119): runs the callable and stores
    its value or its exception in the shared state; a second call throws
    [future_error]. *)
Definition invoke (p : packaged_task) : invocation :=
  match result p with
  | Pending =>
      match callee p tt with
      | Returns v => Completed {| callee := callee p; result := HasValue v |}
      | Throws e => Completed {| callee := callee p; result := HasException e |}
      | Diverges => NeverReturns
      end
  | _ => Escapes (future_error "promise_already_satisfied")
  end.

(** The pool.  [workers], [tasks] and [stop] are the members of the
    class (lines 35-43); [queue_mutex] and [condition] are in the step
    function.  The other fields are the pool's surroundings: the
    packaged tasks and shared states on the free store, the [enqueue]
    calls that have released the lock and not yet called [notify_one],
    the destructor's progress, and two history lists (every address
    ever pushed, every address ever popped) that no step reads. *)
Record ThreadPool := {
  workers : list worker;
  tasks : list nat;
  stop : bool;
  heap : gmap nat packaged_task;
  notifying : nat;
  phase : lifecycle;
  pushed : list nat;
  popped : list nat
}.

(** Lines 47-87: [stop(false)], then [threads] workers are started. *)
Definition ThreadPool_new (threads : nat) : ThreadPool :=
  {| workers := replicate threads Contending;
     tasks := [];
     stop := false;
     heap := ∅;
     notifying := 0;
     phase := Constructed;
     pushed := [];
     popped := [] |}.

Definition set_workers (ws : list worker) (s : ThreadPool) : ThreadPool :=
  {| workers := ws; tasks := tasks s; stop := stop s; heap := heap s;
     notifying := notifying s; phase := phase s;
     pushed := pushed s; popped := popped s |}.

Definition set_heap (h : gmap nat packaged_task) (s : ThreadPool) : ThreadPool :=
  {| workers := workers s; tasks := tasks s; stop := stop s; heap := h;
     notifying := notifying s; phase := phase s;
     pushed := pushed s; popped := popped s |}.

Definition set_phase (p : lifecycle) (s : ThreadPool) : ThreadPool :=
  {| workers := workers s; tasks := tasks s; stop := stop s; heap := heap s;
     notifying := notifying s; phase := p;
     pushed := pushed s; popped := popped s |}.

(** ** [enqueue] (lines 90-127) *)

(** Line 102: [make_shared] builds the packaged task at a free address. *)
Definition make_shared (a : nat) (f : callable) (s : ThreadPool) : ThreadPool :=
  set_heap (<[a := {| callee := f; result := Pending |}]> (heap s)) s.

(** Line 116: the exception unwinds [res] and [task], the only owners. *)
Definition unwind (a : nat) (s : ThreadPool) : ThreadPool :=
  set_heap (delete a (heap s)) s.

(** Line 119: [tasks.emplace], at the back of the queue. *)
Definition emplace (a : nat) (s : ThreadPool) : ThreadPool :=
  {| workers := workers s; tasks := tasks s ++ [a]; stop := stop s;
     heap := heap s; notifying := S (notifying s); phase := phase s;
     pushed := pushed s ++ [a]; popped := popped s |}.

(** Lines 102-120 and the [return res] of line 126.  The future is the
    address of its shared state. *)
Definition enqueue (a : nat) (f : callable) (s : ThreadPool)
  : (exception + nat) * ThreadPool :=
  let s1 := make_shared a f s in
  let res := a in
  if stop s1
  then (inl (runtime_error "enqueue on stopped ThreadPool"), unwind a s1)
  else (inr res, emplace a s1).

(** [future::get] on the future at address [fut]: it blocks until the
    shared state is ready, then returns the value or throws the
    exception stored there, be it the one the callable threw or the
    [future_error(broken_promise)] left by a packaged task that was
    destroyed before it ran ([abandon]). *)
Definition future_get (s : ThreadPool) (fut : nat) : get_result R :=
  match heap s !! fut with
  | Some p =>
      match result p with
      | Pending => Blocks
      | HasValue v => Yields v
      | HasException e => Rethrows e
      end
  | None => Rethrows (future_error "no_state")
  end.

(** ** The condition variable *)

Definition is_waiting (w : worker) : bool :=
  match w with Waiting => true | _ => false end.

Definition wake (w : worker) : worker :=
  match w with Waiting => Contending | _ => w end.

(** [condition.notify_one()]: [target] is the waiter the system picks;
    with no waiter the call does nothing.  [None] when the choice is not
    one the system can make. *)
Definition notify_one (target : option nat) (ws : list worker)
  : option (list worker) :=
  match target with
  | Some i =>
      match ws !! i with
      | Some Waiting => Some (<[i := Contending]> ws)
      | _ => None
      end
  | None => if existsb is_waiting ws then None else Some ws
  end.

(** [condition.notify_all()]. *)
Definition notify_all (ws : list worker) : list worker := wake <$> ws.

(** The number of workers blocked inside [condition.wait]. *)
Definition waiters (ws : list worker) : nat :=
  length (filter (λ w, w = Waiting) ws).

(** ** The worker (lines 55-84) *)

(** Line 69: the predicate of the wait. *)
Definition wait_predicate (s : ThreadPool) : bool :=
  stop s || negb (bool_decide (tasks s = [])).

(** Lines 63-79, with the lock held. *)
Definition wait_and_pop (s : ThreadPool) : pulled :=
  if negb (wait_predicate s) then Sleep
  else if stop s && bool_decide (tasks s = []) then Terminate
  else match tasks s with
       | t :: rest => Task t rest
       | [] => Undefined
       end.

(** ** Steps *)

Inductive label :=
  | Submit (a : nat) (f : callable)   (* a thread runs lines 102-120 *)
  | Notify (target : option nat)      (* line 123 of a call that has pushed *)
  | Pull (i : nat)                    (* worker [i] runs lines 63-79 *)
  | Run (i : nat)                     (* worker [i] returns from line 82 *)
  | Spurious (i : nat)                (* worker [i] wakes without a notify *)
  | DtorStop                          (* lines 132-136 *)
  | DtorNotifyAll                     (* line 139 *)
  | DtorJoin                          (* one [join] of lines 142-144 returns *)
  | DtorReturn.                       (* the loop of line 142 is over *)

Definition step (l : label) (s : ThreadPool) : option ThreadPool :=
  match l with
  | Submit a f =>
      match heap s !! a with
      | None => Some (enqueue a f s).2
      | Some _ => None
      end
  | Notify target =>
      match notifying s with
      | 0 => None
      | S n =>
          ws ← notify_one target (workers s);
          Some {| workers := ws; tasks := tasks s; stop := stop s;
                  heap := heap s; notifying := n; phase := phase s;
                  pushed := pushed s; popped := popped s |}
      end
  | Pull i =>
      match workers s !! i with
      | Some Contending =>
          match wait_and_pop s with
          | Sleep => Some (set_workers (<[i := Waiting]> (workers s)) s)
          | Terminate => Some (set_workers (<[i := Exited]> (workers s)) s)
          | Task t rest =>
              Some {| workers := <[i := Executing t]> (workers s);
                      tasks := rest; stop := stop s; heap := heap s;
                      notifying := notifying s; phase := phase s;
                      pushed := pushed s; popped := popped s ++ [t] |}
          | Undefined => Some (set_workers (<[i := Crashed]> (workers s)) s)
          end
      | _ => None
      end
  | Run i =>
      match workers s !! i with
      | Some (Executing t) =>
          match heap s !! t with
          | Some p =>
              match invoke p with
              | Completed p' =>
                  Some (set_workers (<[i := Contending]> (workers s))
                          (set_heap (<[t := p']> (heap s)) s))
              | NeverReturns => None
              | Escapes _ => Some (set_workers (<[i := Crashed]> (workers s)) s)
              end
          | None => Some (set_workers (<[i := Crashed]> (workers s)) s)
          end
      | _ => None
      end
  | Spurious i =>
      match workers s !! i with
      | Some Waiting => Some (set_workers (<[i := Contending]> (workers s)) s)
      | _ => None
      end
  | DtorStop =>
      match phase s with
      | Constructed =>
          Some {| workers := workers s; tasks := tasks s; stop := true;
                  heap := heap s; notifying := notifying s; phase := Stopping;
                  pushed := pushed s; popped := popped s |}
      | _ => None
      end
  | DtorNotifyAll =>
      match phase s with
      | Stopping =>
          Some (set_phase (Joining 0) (set_workers (notify_all (workers s)) s))
      | _ => None
      end
  | DtorJoin =>
      match phase s with
      | Joining k =>
          match workers s !! k with
          | Some Exited => Some (set_phase (Joining (S k)) s)
          | _ => None
          end
      | _ => None
      end
  | DtorReturn =>
      match phase s with
      | Joining k =>
          if bool_decide (k = length (workers s))
          then Some (set_phase Returned s) else None
      | _ => None
      end
  end.

(** A schedule, run from left to right. *)
Fixpoint run (tr : list label) (s : ThreadPool) : option ThreadPool :=
  match tr with
  | [] => Some s
  | l :: tr' => s' ← step l s; run tr' s'
  end.

(** The states of a pool built with [threads] workers. *)
Inductive reachable (threads : nat) : ThreadPool → Prop :=
  | reachable_new : reachable threads (ThreadPool_new threads)
  | reachable_step l s s' :
      reachable threads s → step l s = Some s' → reachable threads s'.

(** ** The end of the pool *)

(** The destructor of a packaged task abandons its shared state: one
    that is not ready is made ready with
    [std::future_error(broken_promise)], one that is ready stays as it
    is. *)
Definition abandon (p : packaged_task) : packaged_task :=
  match result p with
  | Pending =>
      {| callee := callee p;
         result := HasException (future_error "broken_promise") |}
  | _ => p
  end.

(** After line 145 the members are destroyed (lines 35-43).  [tasks]
    goes with the entries still in it, and each entry, the only owner
    of its packaged task once the [enqueue] that pushed it has
    returned, takes that packaged task with it; the threads of
    [workers] have been joined.  This happens when the body of the
    destructor has returned, not before.  A call of [enqueue] that is
    still on its way to line 123 at that time would use a destroyed
    [condition]: the behaviour is undefined, and nothing is said about
    it. *)
Definition destroy_members (s : ThreadPool) : option ThreadPool :=
  match phase s, notifying s with
  | Returned, 0 =>
      Some {| workers := []; tasks := []; stop := stop s;
              heap := foldr (alter abandon) (heap s) (tasks s);
              notifying := 0; phase := Returned;
              pushed := pushed s; popped := popped s |}
  | _, _ => None
  end.

End Model.

Arguments callable R : clear implicits.
Arguments packaged_task R : clear implicits.
Arguments ThreadPool R : clear implicits.
Arguments label R : clear implicits.

(** ** A pool and its owner

    The closed system of [example.cpp]: one owner thread submits the
    callables of a list in order, and may destroy the pool only after
    the last one (lines 19-37); the pool's own threads interleave
    freely.  Spurious wake-ups are not steps of this system. *)

Definition internal {R : Type} (l : label R) : bool :=
  match l with
  | Notify _ | Pull _ | Run _ | DtorNotifyAll | DtorJoin | DtorReturn => true
  | Submit _ _ | Spurious _ | DtorStop => false
  end.

Inductive owner_step {R : Type}
  : list (callable R) * ThreadPool R → list (callable R) * ThreadPool R → Prop :=
  | owner_submits a f rest s s' :
      step (Submit a f) s = Some s' → owner_step (f :: rest, s) (rest, s')
  | owner_destroys s s' :
      step DtorStop s = Some s' → owner_step ([], s) ([], s')
  | pool_moves l rest s s' :
      internal l = true → step l s = Some s' → owner_step (rest, s) (rest, s').

(** [P] holds at some point of every run of the closed system from [c],
    and every such run is finite up to that point. *)
Inductive inevitably {R : Type} (P : list (callable R) * ThreadPool R → Prop)
  : list (callable R) * ThreadPool R → Prop :=
  | inevitably_now c : P c → inevitably P c
  | inevitably_later c :
      (∃ c', owner_step c c') →
      (∀ c', owner_step c c' → inevitably P c') →
      inevitably P c.

(** Every callable of the list returns or throws. *)
Definition terminates {R : Type} (f : callable R) : Prop := f tt ≠ Diverges.

(** What [future::get] returns for a callable that has been run. *)
Definition expected {R : Type} (f : callable R) : get_result R :=
  match f tt with
  | Returns v => Yields v
  | Throws e => Rethrows e
  | Diverges => Blocks
  end.

(** Nothing is left to submit and every future that was handed out is
    ready. *)
Definition all_completed {R : Type} (c : list (callable R) * ThreadPool R) : Prop :=
  c.1 = [] ∧ ∀ a, a ∈ pushed c.2 → future_get c.2 a ≠ Blocks.

(** ** What the workers are doing, what a run has done *)

(** The tasks the workers are running. *)
Definition running_task (w : worker) : option nat :=
  match w with Executing t => Some t | _ => None end.

Definition executing (ws : list worker) : list nat := omap running_task ws.

(** The calls of [notify_one] (line 123) in a run. *)
Definition is_notify {R : Type} (l : label R) : bool :=
  match l with Notify _ => true | _ => false end.

Definition notify_calls {R : Type} (tr : list (label R)) : nat :=
  length (filter (λ l, is_notify l = true) tr).

(** The returns from [task()] (line 82) in a run. *)
Definition is_run {R : Type} (l : label R) : bool :=
  match l with Run _ => true | _ => false end.

Definition run_calls {R : Type} (tr : list (label R)) : nat :=
  length (filter (λ l, is_run l = true) tr).

(** ** [example.cpp] *)

(** [int] multiplication of line 28, on 32 bits. *)
Definition int_mul (a b : Z) : Z :=
  ((a * b + 2 ^ 31) `mod` 2 ^ 32 - 2 ^ 31)%Z.

(** The lambda of lines 24-29 with [i] captured; its output to
    [std::cout] and its sleep are left out. *)
Definition square_task (i : Z) : callable Z :=
  std_bind (λ _ : unit, Returns (int_mul i i)) tt.



(** ** Schedules of small pools *)

(** One worker: a task is submitted and run, then the destructor runs
    to the end of its body. *)
Definition one_worker_run : list (label Z) :=
  [Submit 0 (square_task 3); Notify None; Pull 0; Run 0; Pull 0;
   DtorStop; DtorNotifyAll; Pull 0; DtorJoin; DtorReturn].

(** One worker that has taken a task whose callable throws. *)
Definition throwing_run : list (label Z) :=
  [Submit 0 (λ _, Throws (thrown 7)); Notify None; Pull 0].

(** No worker: a task is submitted, then the destructor runs to the
    end of its body. *)
Definition no_worker_run : list (label Z) :=
  [Submit 0 (square_task 3); Notify None;
   DtorStop; DtorNotifyAll; DtorReturn].

(** Two workers: one is running the first task, the second task is
    queued. *)
Definition busy_run : list (label Z) :=
  [Submit 0 (square_task 3); Submit 1 (square_task 4); Pull 0].

(** One worker that has completed two tasks. *)
Definition serial_run : list (label Z) :=
  [Submit 0 (square_task 3); Submit 1 (square_task 4);
   Pull 0; Run 0; Pull 0; Run 0].

(** Two workers asleep, then one submission that has not notified yet. *)
Definition asleep_run : list (label Z) :=
  [Pull 0; Pull 1; Submit 0 (square_task 3)].

(** One worker: two pushes, the first has notified. *)
Definition half_notified_run : list (label Z) :=
  [Submit 0 (square_task 3); Notify None; Pull 0;
   Submit 1 (square_task 4)].

(** One worker: the destructor begins while the first task is running
    and the second is queued; the worker runs both, then leaves. *)
Definition drain_run : list (label Z) :=
  [Submit 0 (square_task 3); Notify None; Submit 1 (square_task 4);
   Notify None; Pull 0; DtorStop; DtorNotifyAll; Run 0; Pull 0; Run 0;
   Pull 0; DtorJoin; DtorReturn].

(** One worker: a task that never returns, then a task that would. *)
Definition stuck_run : list (label Z) :=
  [Submit 0 (λ _, Diverges); Submit 1 (square_task 3)].

(** ** Invariants and measures *)

Section Specification.
Context {R : Type}.
Implicit Types (s : ThreadPool R) (f : callable R) (l : label R).

(** The step function as a relation, one rule per way a step can go. *)
Inductive step_spec s : label R → ThreadPool R → Prop :=
  | spec_submit_rejected a f :
      heap s !! a = None → stop s = true →
      step_spec s (Submit a f) s
  | spec_submit_accepted a f :
      heap s !! a = None → stop s = false →
      step_spec s (Submit a f)
        {| workers := workers s; tasks := tasks s ++ [a]; stop := stop s;
           heap := <[a := {| callee := f; result := Pending |}]> (heap s);
           notifying := S (notifying s); phase := phase s;
           pushed := pushed s ++ [a]; popped := popped s |}
  | spec_notify_waiter i n :
      notifying s = S n → workers s !! i = Some Waiting →
      step_spec s (Notify (Some i))
        {| workers := <[i := Contending]> (workers s); tasks := tasks s;
           stop := stop s; heap := heap s; notifying := n; phase := phase s;
           pushed := pushed s; popped := popped s |}
  | spec_notify_nobody n :
      notifying s = S n → (∀ i, workers s !! i ≠ Some Waiting) →
      step_spec s (Notify None)
        {| workers := workers s; tasks := tasks s;
           stop := stop s; heap := heap s; notifying := n; phase := phase s;
           pushed := pushed s; popped := popped s |}
  | spec_pull_sleep i :
      workers s !! i = Some Contending → tasks s = [] → stop s = false →
      step_spec s (Pull i) (set_workers (<[i := Waiting]> (workers s)) s)
  | spec_pull_exit i :
      workers s !! i = Some Contending → tasks s = [] → stop s = true →
      step_spec s (Pull i) (set_workers (<[i := Exited]> (workers s)) s)
  | spec_pull_task i t rest :
      workers s !! i = Some Contending → tasks s = t :: rest →
      step_spec s (Pull i)
        {| workers := <[i := Executing t]> (workers s);
           tasks := rest; stop := stop s; heap := heap s;
           notifying := notifying s; phase := phase s;
           pushed := pushed s; popped := popped s ++ [t] |}
  | spec_run_done i t p p' :
      workers s !! i = Some (Executing t) → heap s !! t = Some p →
      invoke p = Completed p' →
      step_spec s (Run i)
        (set_workers (<[i := Contending]> (workers s))
           (set_heap (<[t := p']> (heap s)) s))
  | spec_run_crash i t :
      workers s !! i = Some (Executing t) →
      (heap s !! t = None ∨ ∃ p e, heap s !! t = Some p ∧ invoke p = Escapes e) →
      step_spec s (Run i) (set_workers (<[i := Crashed]> (workers s)) s)
  | spec_spurious i :
      workers s !! i = Some Waiting →
      step_spec s (Spurious i) (set_workers (<[i := Contending]> (workers s)) s)
  | spec_dtor_stop :
      phase s = Constructed →
      step_spec s DtorStop
        {| workers := workers s; tasks := tasks s; stop := true;
           heap := heap s; notifying := notifying s; phase := Stopping;
           pushed := pushed s; popped := popped s |}
  | spec_dtor_notify_all :
      phase s = Stopping →
      step_spec s DtorNotifyAll
        (set_phase (Joining 0) (set_workers (notify_all (workers s)) s))
  | spec_dtor_join k :
      phase s = Joining k → workers s !! k = Some Exited →
      step_spec s DtorJoin (set_phase (Joining (S k)) s)
  | spec_dtor_return :
      phase s = Joining (length (workers s)) →
      step_spec s DtorReturn (set_phase Returned s).

(** The shared state holds what the callable produced. *)
Definition outcome_agrees (p : packaged_task R) : Prop :=
  match result p with
  | Pending => True
  | HasValue v => callee p tt = Returns v
  | HasException e => callee p tt = Throws e
  end.

(** A worker that will take the lock again without being notified. *)
Definition awake (w : worker) : Prop :=
  w = Contending ∨ ∃ a, w = Executing a.

(** What holds in every state of a pool built with [n] workers. *)
Record Inv (n : nat) (s : ThreadPool R) : Prop := {
  inv_len : length (workers s) = n;
  inv_fifo : pushed s = popped s ++ tasks s;
  inv_nodup : NoDup (pushed s);
  inv_alloc : ∀ a, a ∈ pushed s → is_Some (heap s !! a);
  inv_exec : ∀ i a, workers s !! i = Some (Executing a) →
    a ∈ popped s ∧ ∃ p, heap s !! a = Some p ∧ result p = Pending;
  inv_uniq : ∀ i j a, workers s !! i = Some (Executing a) →
    workers s !! j = Some (Executing a) → i = j;
  inv_done : ∀ a p, heap s !! a = Some p → result p ≠ Pending →
    a ∈ popped s ∧ outcome_agrees p;
  inv_popped : ∀ a, a ∈ popped s →
    (∃ i, workers s !! i = Some (Executing a))
    ∨ (∃ p, heap s !! a = Some p ∧ result p ≠ Pending);
  inv_nocrash : ∀ i, workers s !! i ≠ Some Crashed;
  inv_stop : stop s = true ↔ phase s ≠ Constructed;
  inv_exited : ∀ i, workers s !! i = Some Exited → stop s = true ∧ tasks s = [];
  inv_joined : ∀ k, phase s = Joining k →
    ∀ j, j < k → workers s !! j = Some Exited;
  inv_returned : phase s = Returned →
    ∀ i w, workers s !! i = Some w → w = Exited;
  inv_awake : phase s ≠ Constructed → phase s ≠ Stopping →
    ∀ i, workers s !! i ≠ Some Waiting;
  inv_wake : 0 < n → tasks s ≠ [] →
    0 < notifying s ∨ ∃ i w, workers s !! i = Some w ∧ awake w
}.

(** ** Progress of the closed system *)

(** A bound on the number of steps the closed system can still take. *)
Definition worker_weight (w : worker) : nat :=
  match w with
  | Contending => 1
  | Executing _ => 3
  | Waiting | Exited | Crashed => 0
  end.

Definition phase_weight (n : nat) (p : lifecycle) : nat :=
  match p with
  | Constructed => 2 * n + 3
  | Stopping => 2 * n + 2
  | Joining k => n - k + 1
  | Returned => 0
  end.

Definition measure (c : list (callable R) * ThreadPool R) : nat :=
  7 * length c.1 + 2 * notifying c.2
  + sum_list (worker_weight <$> workers c.2)
  + 4 * length (tasks c.2)
  + phase_weight (length (workers c.2)) (phase c.2).

(** Every callable that was handed to the pool returns or throws. *)
Definition heap_terminates (s : ThreadPool R) : Prop :=
  ∀ a p, heap s !! a = Some p → terminates (callee p).

(** What the closed system keeps true. *)
Definition owner_inv (n : nat) (c : list (callable R) * ThreadPool R) : Prop :=
  Inv n c.2 ∧ heap_terminates c.2 ∧ Forall terminates c.1.


(** The owner still has something to submit or a future to wait for,
    and has not begun to destroy the pool before its last submission. *)
Definition has_work (c : list (callable R) * ThreadPool R) : Prop :=
  (c.1 ≠ [] → stop c.2 = false) ∧ (c.1 ≠ [] ∨ pushed c.2 ≠ []).

End Specification.

(** ** Steps, case by case *)

Section Inversion.
Context {R : Type}.
Implicit Types (s : ThreadPool R) (f : callable R) (l : label R).
Implicit Types (p q : packaged_task R) (c : list (callable R) * ThreadPool R).

Lemma ThreadPool_eta s :
  {| workers := workers s; tasks := tasks s; stop := stop s; heap := heap s;
     notifying := notifying s; phase := phase s;
     pushed := pushed s; popped := popped s |} = s.
Proof. by destruct s. Qed.

Lemma wait_and_pop_cases s :
  wait_and_pop s =
  match tasks s with
  | [] => if stop s then Terminate else Sleep
  | t :: rest => Task t rest
  end.
Proof.
  unfold wait_and_pop, wait_predicate.
  destruct (tasks s) as [|t rest], (stop s); simpl; try done.
Qed.

Lemma existsb_is_waiting_false (ws : list worker) :
  existsb is_waiting ws = false ↔ ∀ i, ws !! i ≠ Some Waiting.
Proof.
  induction ws as [|w ws IH]; simpl.
  - split; [intros _ i; by rewrite lookup_nil | done].
  - rewrite orb_false_iff, IH. split.
    + intros [Hw Hws] [|i]; simpl; [by destruct w | apply Hws].
    + intros H. split.
      * specialize (H 0). simpl in H. by destruct w.
      * intros i. apply (H (S i)).
Qed.

Lemma step_inv l s s' : step l s = Some s' → step_spec s l s'.
Proof.
  intros H. destruct l; simpl in H.
  - destruct (heap s !! a) eqn:Ha; [done|]. simplify_eq.
    unfold enqueue. simpl. destruct (stop s) eqn:Hs; simpl.
    + unfold unwind, make_shared, set_heap; simpl.
      rewrite delete_insert_id, ThreadPool_eta by done. by constructor.
    + unfold emplace, make_shared, set_heap; simpl. by constructor.
  - destruct (notifying s) as [|n] eqn:Hn; [done|].
    destruct target as [i|]; simpl in H.
    + destruct (workers s !! i) as [[]|] eqn:Hi; simplify_eq/=.
      by econstructor.
    + destruct (existsb is_waiting (workers s)) eqn:Hex; simplify_eq/=.
      econstructor; [done|]. by apply existsb_is_waiting_false.
  - destruct (workers s !! i) as [[]|] eqn:Hi; try done.
    rewrite wait_and_pop_cases in H.
    destruct (tasks s) as [|t rest] eqn:Ht.
    + destruct (stop s) eqn:Hs; simplify_eq; by constructor.
    + simplify_eq. by constructor.
  - destruct (workers s !! i) as [[]|] eqn:Hi; try done.
    destruct (heap s !! task) as [p|] eqn:Hp.
    + destruct (invoke p) eqn:Hinv; simplify_eq.
      * by econstructor.
      * econstructor; [done|]. right. eauto.
    + simplify_eq. econstructor; [done|]. by left.
  - destruct (workers s !! i) as [[]|] eqn:Hi; simplify_eq. by constructor.
  - destruct (phase s) eqn:Hp; simplify_eq. by constructor.
  - destruct (phase s) eqn:Hp; simplify_eq. by constructor.
  - destruct (phase s) eqn:Hp; try done.
    destruct (workers s !! k) as [[]|] eqn:Hi; simplify_eq. by econstructor.
  - destruct (phase s) eqn:Hp; try done. case_bool_decide; simplify_eq.
    by constructor.
Qed.

End Inversion.

(** Case analysis on a step; the names of the cases are fixed. *)
Ltac step_cases H :=
  apply step_inv in H;
  destruct H as [a f Ha Hs | a f Ha Hs | i m Hm Hi | m Hm Hnw
                | i Hi Ht Hs | i Hi Ht Hs | i t rest Hi Ht
                | i t p p' Hi Hp Hinv | i t Hi Hc | i Hi
                | Hph | Hph | k Hph Hk | Hph]; simpl.

Ltac split_lookups :=
  repeat match goal with
  | H : <[_ := _]> _ !! _ = Some _ |- _ =>
      apply list_lookup_insert_Some in H as [(-> & ? & ?)|[? H]]; simplify_eq
  end.

(** ** The invariant is kept *)

Section Proofs.
Context {R : Type}.
Implicit Types (s : ThreadPool R) (f : callable R) (l : label R).
Implicit Types (p q : packaged_task R) (c : list (callable R) * ThreadPool R).
Implicit Types (fs : list (callable R)).

Lemma Inv_new n : Inv n (ThreadPool_new n : ThreadPool R).
Proof.
  split; simpl; try done.
  - apply length_replicate.
  - constructor.
  - intros a Ha. by apply elem_of_nil in Ha.
  - intros i a Hi. apply lookup_replicate in Hi as [? _]. done.
  - intros i j a Hi. apply lookup_replicate in Hi as [? _]. done.
  - intros a Ha. by apply elem_of_nil in Ha.
  - intros i Hi. apply lookup_replicate in Hi as [? _]. done.
  - intros i Hi. apply lookup_replicate in Hi as [? _]. done.
Qed.

Lemma invoke_pending p :
  result p = Pending → callee p tt ≠ Diverges →
  ∃ p', invoke p = Completed p' ∧ callee p' = callee p
        ∧ result p' ≠ Pending ∧ outcome_agrees p'.
Proof.
  intros Hp Hd. unfold invoke, outcome_agrees. rewrite Hp.
  destruct (callee p tt) eqn:Hc; [| |done]; eexists; split; try done.
Qed.

Lemma invoke_completed p p' :
  invoke p = Completed p' →
  result p = Pending ∧ callee p' = callee p ∧ result p' ≠ Pending
  ∧ outcome_agrees p'.
Proof.
  unfold invoke, outcome_agrees.
  destruct (result p); [|done..].
  destruct (callee p tt) eqn:Hc; intros; simplify_eq; done.
Qed.

Lemma step_len l s s' :
  step l s = Some s' → length (workers s') = length (workers s).
Proof.
  intros H. apply step_inv in H. destruct H; simpl;
    rewrite ?length_insert; try done.
  unfold notify_all. by rewrite length_fmap.
Qed.

Lemma step_fifo l s s' :
  step l s = Some s' →
  pushed s = popped s ++ tasks s → pushed s' = popped s' ++ tasks s'.
Proof.
  intros H Hf. apply step_inv in H. destruct H; simpl; try done.
  - by rewrite Hf, (assoc _).
  - rewrite Hf, H0. by rewrite <- (assoc _).
Qed.

Lemma step_nodup n l s s' :
  Inv n s → step l s = Some s' → NoDup (pushed s').
Proof.
  intros HI H. apply step_inv in H. destruct H; simpl; try apply HI.
  apply NoDup_app. split_and!; [apply HI| |apply NoDup_singleton].
  intros x Hx ->%list_elem_of_singleton.
  apply (inv_alloc _ _ HI) in Hx as [p Hp]. congruence.
Qed.

Lemma step_alloc n l s s' :
  Inv n s → step l s = Some s' → ∀ a, a ∈ pushed s' → is_Some (heap s' !! a).
Proof.
  intros HI H. apply step_inv in H. destruct H; simpl; try apply HI.
  - intros a0 [Ha| ->%list_elem_of_singleton]%elem_of_app.
    + apply (inv_alloc _ _ HI) in Ha as [p Hp].
      rewrite lookup_insert_ne by congruence. eauto.
    + rewrite lookup_insert_eq. eauto.
  - intros a Ha. apply (inv_alloc _ _ HI) in Ha.
    destruct (decide (t = a)) as [->|]; [rewrite lookup_insert_eq; eauto|].
    by rewrite lookup_insert_ne.
Qed.

Lemma lookup_notify_all (ws : list worker) i w :
  notify_all ws !! i = Some w ↔ ∃ w0, ws !! i = Some w0 ∧ w = wake w0.
Proof.
  unfold notify_all. rewrite list_lookup_fmap.
  destruct (ws !! i) as [w0|]; simpl; split.
  - intros [= <-]. by exists w0.
  - by intros (? & [= <-] & ->).
  - done.
  - by intros (? & ? & _).
Qed.

Lemma lookup_notify_all_Executing (ws : list worker) i a :
  notify_all ws !! i = Some (Executing a) ↔ ws !! i = Some (Executing a).
Proof.
  rewrite lookup_notify_all. split.
  - intros ([] & ? & ?); simplify_eq/=; done.
  - intros ?. by eexists.
Qed.

Lemma head_not_popped n s t rest :
  Inv n s → tasks s = t :: rest → t ∉ popped s.
Proof.
  intros HI Ht Hin. pose proof (inv_nodup _ _ HI) as Hnd.
  rewrite (inv_fifo _ _ HI), Ht in Hnd.
  apply NoDup_app in Hnd as (_ & Hnd & _).
  apply (Hnd t); [done|set_solver].
Qed.

Lemma head_not_executing n s t rest i :
  Inv n s → tasks s = t :: rest → workers s !! i ≠ Some (Executing t).
Proof.
  intros HI Ht Hi. apply (head_not_popped _ _ _ _ HI Ht).
  by apply (inv_exec _ _ HI) in Hi as [? _].
Qed.

Lemma head_pending n s t rest :
  Inv n s → tasks s = t :: rest →
  ∃ p, heap s !! t = Some p ∧ result p = Pending.
Proof.
  intros HI Ht.
  assert (t ∈ pushed s) as Hin by (rewrite (inv_fifo _ _ HI), Ht; set_solver).
  destruct (inv_alloc _ _ HI _ Hin) as [p Hp]. exists p. split; [done|].
  destruct (result p) eqn:Hr; [done|exfalso..].
  all: apply (head_not_popped _ _ _ _ HI Ht).
  all: eapply (inv_done _ _ HI); [done|by rewrite Hr].
Qed.

Lemma step_exec n l s s' :
  Inv n s → step l s = Some s' →
  ∀ i a, workers s' !! i = Some (Executing a) →
    a ∈ popped s' ∧ ∃ p, heap s' !! a = Some p ∧ result p = Pending.
Proof.
  intros HI H. step_cases H; try apply HI.
  all: intros j b Hj; split_lookups; try (by eapply (inv_exec _ _ HI)).
  - destruct (inv_exec _ _ HI _ _ Hj) as (Hb & p & Hp & Hr).
    split; [done|]. exists p. rewrite lookup_insert_ne; [done|congruence].
  - split; [set_solver|]. by eapply head_pending.
  - destruct (inv_exec _ _ HI _ _ Hj) as (Hb & p & Hp & Hr).
    split; [set_solver|eauto].
  - destruct (inv_exec _ _ HI _ _ Hj) as (Hb & q & Hq & Hr).
    split; [done|]. exists q. split; [|done].
    rewrite lookup_insert_ne; [done|]. intros ->.
    match goal with H : _ ≠ _ |- _ => apply H end.
    by eapply (inv_uniq _ _ HI).
  - rewrite lookup_notify_all_Executing in Hj. by eapply (inv_exec _ _ HI).
Qed.

Lemma step_uniq n l s s' :
  Inv n s → step l s = Some s' →
  ∀ i j a, workers s' !! i = Some (Executing a) →
    workers s' !! j = Some (Executing a) → i = j.
Proof.
  intros HI H. step_cases H; try apply HI.
  all: intros j1 j2 b H1 H2; split_lookups; try done;
    try (by eapply (inv_uniq _ _ HI)).
  1,2: by edestruct (head_not_executing n s) as [].
  rewrite lookup_notify_all_Executing in H1, H2. by eapply (inv_uniq _ _ HI).
Qed.

Lemma step_done n l s s' :
  Inv n s → step l s = Some s' →
  ∀ a p, heap s' !! a = Some p → result p ≠ Pending →
    a ∈ popped s' ∧ outcome_agrees p.
Proof.
  intros HI H. step_cases H; try apply HI.
  - intros b q Hq Hr. destruct (decide (a = b)) as [->|].
    + rewrite lookup_insert_eq in Hq. by simplify_eq/=.
    + rewrite lookup_insert_ne in Hq by done. by eapply (inv_done _ _ HI).
  - intros b q Hq Hr. destruct (inv_done _ _ HI _ _ Hq Hr). set_solver.
  - intros b q Hq Hr. destruct (decide (t = b)) as [->|].
    + rewrite lookup_insert_eq in Hq. simplify_eq.
      split; [by eapply (inv_exec _ _ HI)|].
      by apply invoke_completed in Hinv as (_ & _ & _ & ?).
    + rewrite lookup_insert_ne in Hq by done. by eapply (inv_done _ _ HI).
Qed.

Lemma run_never_crashes n s i t :
  Inv n s → workers s !! i = Some (Executing t) →
  ¬ (heap s !! t = None ∨ ∃ p e, heap s !! t = Some p ∧ invoke p = Escapes e).
Proof.
  intros HI Hi. destruct (inv_exec _ _ HI _ _ Hi) as (_ & p & Hp & Hr).
  intros [Hnone|(q & e & Hq & He)]; [congruence|].
  rewrite Hp in Hq. injection Hq as <-.
  unfold invoke in He. rewrite Hr in He. by destruct (callee p tt).
Qed.

Lemma still_executing (ws : list worker) i w0 w' j b :
  ws !! i = Some w0 → w0 ≠ Executing b →
  ws !! j = Some (Executing b) → <[i:=w']> ws !! j = Some (Executing b).
Proof.
  intros Hi Hw Hj. rewrite list_lookup_insert_ne; [done|]. congruence.
Qed.

Lemma step_popped n l s s' :
  Inv n s → step l s = Some s' →
  ∀ a, a ∈ popped s' →
    (∃ i, workers s' !! i = Some (Executing a))
    ∨ (∃ p, heap s' !! a = Some p ∧ result p ≠ Pending).
Proof.
  intros HI H. step_cases H; try apply HI.
  all: intros b Hb.
  - destruct (inv_popped _ _ HI _ Hb) as [?|(p & Hp & Hr)]; [by left|right].
    exists p. rewrite lookup_insert_ne; [done|congruence].
  - destruct (inv_popped _ _ HI _ Hb) as [[j Hj]|?]; [left|by right].
    exists j. by eapply still_executing.
  - destruct (inv_popped _ _ HI _ Hb) as [[j Hj]|?]; [left|by right].
    exists j. by eapply still_executing.
  - destruct (inv_popped _ _ HI _ Hb) as [[j Hj]|?]; [left|by right].
    exists j. by eapply still_executing.
  - apply elem_of_app in Hb as [Hb| ->%list_elem_of_singleton].
    + destruct (inv_popped _ _ HI _ Hb) as [[j Hj]|?]; [left|by right].
      exists j. by eapply still_executing.
    + left. exists i. apply list_lookup_insert_eq. by eapply lookup_lt_Some.
  - destruct (decide (b = t)) as [->|Hne].
    + right. exists p'. rewrite lookup_insert_eq. split; [done|].
      by apply invoke_completed in Hinv as (_ & _ & ? & _).
    + destruct (inv_popped _ _ HI _ Hb) as [[j Hj]|(q & Hq & Hr)]; [left|right].
      * exists j. eapply still_executing; [done| |done]. congruence.
      * exists q. by rewrite lookup_insert_ne.
  - by destruct (run_never_crashes _ _ _ _ HI Hi).
  - destruct (inv_popped _ _ HI _ Hb) as [[j Hj]|?]; [left|by right].
    exists j. by eapply still_executing.
  - destruct (inv_popped _ _ HI _ Hb) as [[j Hj]|?]; [left|by right].
    exists j. by rewrite lookup_notify_all_Executing.
Qed.

Lemma step_nocrash n l s s' :
  Inv n s → step l s = Some s' → ∀ i, workers s' !! i ≠ Some Crashed.
Proof.
  intros HI H. step_cases H; try apply HI.
  all: intros j Hj; split_lookups; try (by eapply (inv_nocrash _ _ HI)).
  - by destruct (run_never_crashes _ _ _ _ HI Hi).
  - apply lookup_notify_all in Hj as ([] & Hj & ?); simplify_eq/=.
    by eapply (inv_nocrash _ _ HI).
Qed.

Lemma step_stop n l s s' :
  Inv n s → step l s = Some s' → stop s' = true ↔ phase s' ≠ Constructed.
Proof.
  intros HI H. pose proof (inv_stop _ _ HI) as Hst.
  step_cases H; try done.
  - rewrite Hst, Hph. done.
  - rewrite Hst, Hph. done.
  - rewrite Hst, Hph. done.
Qed.

Lemma step_exited n l s s' :
  Inv n s → step l s = Some s' →
  ∀ i, workers s' !! i = Some Exited → stop s' = true ∧ tasks s' = [].
Proof.
  intros HI H. step_cases H; try apply HI.
  all: intros j Hj; split_lookups; try (by eapply (inv_exited _ _ HI)).
  - apply (inv_exited _ _ HI) in Hj as [? _]. congruence.
  - done.
  - apply (inv_exited _ _ HI) in Hj as [_ ?]. congruence.
  - by apply (inv_exited _ _ HI) in Hj as [_ ?].
  - apply lookup_notify_all in Hj as ([] & Hj & ?); simplify_eq/=.
    by eapply (inv_exited _ _ HI).
Qed.

Lemma exited_stays l s s' j :
  step l s = Some s' → workers s !! j = Some Exited →
  workers s' !! j = Some Exited.
Proof.
  intros H Hj. step_cases H; try done.
  all: try (rewrite list_lookup_insert_ne; [done|congruence]).
  apply lookup_notify_all. by exists Exited.
Qed.

Lemma step_joined n l s s' :
  Inv n s → step l s = Some s' →
  ∀ k, phase s' = Joining k → ∀ j, j < k → workers s' !! j = Some Exited.
Proof.
  intros HI H k' Hk' j Hj.
  destruct (decide (phase s = Joining k')) as [Heq|Hne].
  { eapply exited_stays; [done|]. by eapply (inv_joined _ _ HI). }
  step_cases H; simpl in *; try done.
  - simplify_eq. lia.
  - simplify_eq. destruct (decide (j = k)) as [->|]; [done|].
    eapply (inv_joined _ _ HI); [done|lia].
Qed.

Lemma step_returned n l s s' :
  Inv n s → step l s = Some s' →
  phase s' = Returned → ∀ i w, workers s' !! i = Some w → w = Exited.
Proof.
  intros HI H Hd j w Hj.
  assert (j < length (workers s)) as Hlt.
  { rewrite <- (step_len _ _ _ H). by eapply lookup_lt_Some. }
  assert (workers s !! j = Some Exited) as Hex.
  { destruct (lookup_lt_is_Some_2 _ _ Hlt) as [w0 Hw0]. rewrite Hw0. f_equal.
    step_cases H; simpl in *; try done;
      try (by eapply (inv_returned _ _ HI)); try congruence.
    pose proof (inv_joined _ _ HI _ Hph _ Hlt). congruence. }
  pose proof (exited_stays _ _ _ _ H Hex). congruence.
Qed.

Lemma step_awake n l s s' :
  Inv n s → step l s = Some s' →
  phase s' ≠ Constructed → phase s' ≠ Stopping →
  ∀ i, workers s' !! i ≠ Some Waiting.
Proof.
  intros HI H. step_cases H; try apply HI; try done.
  all: intros Hp1 Hp2 j Hj; split_lookups;
    try (by eapply (inv_awake _ _ HI)).
  - apply (inv_stop _ _ HI) in Hp1. congruence.
  - apply lookup_notify_all in Hj as ([] & _ & ?); simplify_eq/=.
  - eapply (inv_awake _ _ HI); [| |done]; congruence.
  - eapply (inv_awake _ _ HI); [| |done]; congruence.
Qed.

Lemma awake_insert (ws : list worker) i w :
  i < length ws → awake w → ∃ j w', <[i:=w]> ws !! j = Some w' ∧ awake w'.
Proof.
  intros Hi Hw. exists i, w. split; [|done]. by apply list_lookup_insert_eq.
Qed.

Lemma step_wake n l s s' :
  Inv n s → step l s = Some s' →
  0 < n → tasks s' ≠ [] →
  0 < notifying s' ∨ ∃ i w, workers s' !! i = Some w ∧ awake w.
Proof.
  intros HI H Hn. pose proof (inv_wake _ _ HI Hn) as Hw.
  step_cases H; try done.
  all: intros Hne.
  - left. lia.
  - right. eapply awake_insert; [by eapply lookup_lt_Some|by left].
  - right. rewrite <- (inv_len _ _ HI) in Hn.
    destruct (lookup_lt_is_Some_2 _ _ Hn) as [w Hw0]. exists 0, w.
    split; [done|]. destruct w; [by left|by destruct (Hnw 0)|right; eauto| |].
    + apply (inv_exited _ _ HI) in Hw0 as [_ ?]. done.
    + by destruct (inv_nocrash _ _ HI 0).
  - right. eapply awake_insert; [by eapply lookup_lt_Some|right; eauto].
  - right. eapply awake_insert; [by eapply lookup_lt_Some|by left].
  - by destruct (run_never_crashes _ _ _ _ HI Hi).
  - right. eapply awake_insert; [by eapply lookup_lt_Some|by left].
  - destruct (Hw Hne) as [?|(j & w & Hj & Hw')]; [by left|right].
    exists j, w. split; [|done]. apply lookup_notify_all. exists w.
    split; [done|]. by destruct Hw' as [->|[? ->]].
Qed.

Lemma step_preserves_Inv n l s s' :
  Inv n s → step l s = Some s' → Inv n s'.
Proof.
  intros HI H. split.
  - rewrite (step_len _ _ _ H). apply HI.
  - eapply step_fifo; [done|apply HI].
  - by eapply step_nodup.
  - by eapply step_alloc.
  - by eapply step_exec.
  - by eapply step_uniq.
  - by eapply step_done.
  - by eapply step_popped.
  - by eapply step_nocrash.
  - by eapply step_stop.
  - by eapply step_exited.
  - by eapply step_joined.
  - by eapply step_returned.
  - by eapply step_awake.
  - by eapply step_wake.
Qed.

Lemma reachable_Inv n s : reachable n s → Inv n s.
Proof.
  induction 1 as [|l s s' _ IH Hstep]; [apply Inv_new|].
  by eapply step_preserves_Inv.
Qed.

Lemma weight_insert (ws : list worker) i w w' :
  ws !! i = Some w →
  sum_list (worker_weight <$> <[i:=w']> ws) + worker_weight w
  = sum_list (worker_weight <$> ws) + worker_weight w'.
Proof.
  revert i. induction ws as [|w0 ws IH]; intros [|i] Hi; simplify_eq/=.
  - lia.
  - specialize (IH _ Hi). lia.
Qed.

Lemma weight_notify_all (ws : list worker) :
  sum_list (worker_weight <$> notify_all ws)
  ≤ sum_list (worker_weight <$> ws) + length ws.
Proof.
  unfold notify_all. induction ws as [|w ws IH]; [simpl; lia|].
  rewrite !fmap_cons. destruct w; simpl in *; lia.
Qed.

Lemma step_measure l fs s s' :
  internal l = true ∨ l = DtorStop →
  step l s = Some s' → measure (fs, s') < measure (fs, s).
Proof.
  intros Hl H. pose proof (step_len _ _ _ H) as Hlen.
  unfold measure. simpl. rewrite Hlen. clear Hlen.
  step_cases H; simpl; try (by destruct Hl);
    try rewrite Hph; try rewrite Hm; simpl; rewrite ?length_insert.
  all: try (pose proof (weight_insert _ _ _ Contending Hi));
       try (pose proof (weight_insert _ _ _ Waiting Hi));
       try (pose proof (weight_insert _ _ _ Exited Hi));
       try (pose proof (weight_insert _ _ _ Crashed Hi));
       try (pose proof (weight_insert _ _ _ (Executing t) Hi));
       try rewrite Ht; simpl in *; try lia.
  - pose proof (weight_notify_all (workers s)). lia.
  - apply lookup_lt_Some in Hk. lia.
Qed.

Lemma owner_step_measure (c c' : list (callable R) * ThreadPool R) :
  owner_step c c' → measure c' < measure c.
Proof.
  destruct 1 as [a0 f0 fs s s' H|s s' H|l fs s s' Hl H].
  - pose proof (step_len _ _ _ H) as Hlen. unfold measure. simpl.
    rewrite Hlen.
    apply step_inv in H. inversion H; subst; simpl; rewrite ?length_app;
      simpl; lia.
  - eapply step_measure; [|done]. by right.
  - eapply step_measure; [|done]. by left.
Qed.

Lemma step_heap_callees (P : callable R → Prop) l s s' :
  (∀ a f, l = Submit a f → P f) →
  step l s = Some s' →
  (∀ b q, heap s !! b = Some q → P (callee q)) →
  ∀ b q, heap s' !! b = Some q → P (callee q).
Proof.
  intros Hl H Hh. step_cases H; try done.
  - intros b q Hq. destruct (decide (a = b)) as [->|].
    + rewrite lookup_insert_eq in Hq. simplify_eq/=. by eapply Hl.
    + rewrite lookup_insert_ne in Hq by done. by eapply Hh.
  - intros b q Hq. destruct (decide (t = b)) as [->|].
    + rewrite lookup_insert_eq in Hq. simplify_eq/=.
      apply invoke_completed in Hinv as (_ & -> & _). by eapply Hh.
    + rewrite lookup_insert_ne in Hq by done. by eapply Hh.
Qed.

Lemma step_heap_terminates l s s' :
  (∀ a f, l = Submit a f → terminates f) →
  step l s = Some s' → heap_terminates s → heap_terminates s'.
Proof.
  intros Hl H Hh b q. by apply (step_heap_callees terminates l s s').
Qed.

(** Which steps can be taken. *)
Lemma Submit_enabled s f : ∃ a s', step (Submit a f) s = Some s'.
Proof.
  exists (fresh (dom (heap s))). simpl.
  rewrite (not_elem_of_dom_1 (heap s) (fresh (dom (heap s))));
    [eauto|apply is_fresh].
Qed.

Lemma Pull_enabled s i :
  workers s !! i = Some Contending → ∃ s', step (Pull i) s = Some s'.
Proof. intros Hi. simpl. rewrite Hi. destruct (wait_and_pop s); eauto. Qed.

Lemma Run_enabled n s i t :
  Inv n s → heap_terminates s → workers s !! i = Some (Executing t) →
  ∃ s', step (Run i) s = Some s'.
Proof.
  intros HI Hh Hi. destruct (inv_exec _ _ HI _ _ Hi) as (_ & p & Hp & Hr).
  destruct (invoke_pending p Hr (Hh _ _ Hp)) as (p' & Hinv & _).
  simpl. rewrite Hi, Hp, Hinv. eauto.
Qed.

Lemma existsb_is_waiting_true (ws : list worker) :
  existsb is_waiting ws = true → ∃ i, ws !! i = Some Waiting.
Proof.
  induction ws as [|w ws IH]; simpl; [done|].
  intros [Hw|Hws]%orb_true_iff.
  - exists 0. by destruct w.
  - destruct (IH Hws) as [i Hi]. by exists (S i).
Qed.

Lemma Notify_enabled s :
  0 < notifying s → ∃ target s', step (Notify target) s = Some s'.
Proof.
  intros Hn. destruct (notifying s) as [|m] eqn:Hm; [lia|].
  destruct (existsb is_waiting (workers s)) eqn:Hex.
  - destruct (existsb_is_waiting_true _ Hex) as [i Hi].
    exists (Some i). simpl. rewrite Hm. simpl. rewrite Hi. simpl. eauto.
  - exists None. simpl. rewrite Hm. simpl. rewrite Hex. simpl. eauto.
Qed.



Lemma owner_step_step (c c' : list (callable R) * ThreadPool R) :
  owner_step c c' →
  ∃ l, step l c.2 = Some c'.2
       ∧ (∀ a f, l = Submit a f → c.1 = f :: c'.1)
       ∧ ((∀ a f, l ≠ Submit a f) → c'.1 = c.1)
       ∧ (l = DtorStop → c.1 = []).
Proof.
  destruct 1 as [a0 f0 fs s s' H|s s' H|l fs s s' Hl H]; simpl.
  - exists (Submit a0 f0). split_and!; try done.
    + by intros ?? [= _ ->].
    + intros Hne. by destruct (Hne a0 f0).
  - exists DtorStop. by split_and!.
  - exists l. split_and!; try done.
    + intros ?? ->. done.
    + intros ->. done.
Qed.

Lemma owner_step_inv n c c' :
  owner_inv n c → owner_step c c' → owner_inv n c'.
Proof.
  intros (HI & Hh & Hfs) Hstep.
  destruct (owner_step_step _ _ Hstep) as (l & H & Hsub & Hnsub & _).
  split_and!.
  - by eapply step_preserves_Inv.
  - eapply step_heap_terminates; [|done..].
    intros a f ->. rewrite (Hsub _ _ eq_refl) in Hfs.
    by apply Forall_cons in Hfs as [? _].
  - destruct l; try (rewrite Hnsub; [done|by intros]).
    rewrite (Hsub _ _ eq_refl) in Hfs. by apply Forall_cons in Hfs as [_ ?].
Qed.


Lemma inevitably_invariant (P I : list (callable R) * ThreadPool R → Prop) c :
  (∀ c c', I c → owner_step c c' → I c') →
  I c → inevitably P c → inevitably (λ c, P c ∧ I c) c.
Proof.
  intros Hpres HI Hev. induction Hev as [c HP|c Hex _ IH].
  - by apply inevitably_now.
  - apply inevitably_later; [done|]. intros c' Hc'. apply IH; [done|].
    by eapply Hpres.
Qed.

Lemma inevitably_mono (P Q : list (callable R) * ThreadPool R → Prop) c :
  (∀ c, P c → Q c) → inevitably P c → inevitably Q c.
Proof.
  intros HPQ Hev. induction Hev as [c HP|c Hex _ IH].
  - apply inevitably_now. by apply HPQ.
  - by apply inevitably_later.
Qed.

Lemma never_inevitable (P J : list (callable R) * ThreadPool R → Prop) c :
  (∀ c c', J c → owner_step c c' → J c') →
  (∀ c, J c → ¬ P c) →
  J c → ¬ inevitably P c.
Proof.
  intros Hpres HJP HJ Hev. induction Hev as [c HP|c [c' Hc'] _ IH].
  - by eapply HJP.
  - eapply IH; [done|]. by eapply Hpres.
Qed.

(** ** Runs *)

Lemma run_reachable n tr s s' :
  reachable n s → run tr s = Some s' → reachable n s'.
Proof.
  revert s. induction tr as [|l tr IH]; intros s Hs Hrun; simpl in Hrun.
  - by simplify_eq.
  - destruct (step l s) as [s1|] eqn:Hstep; [|done]. simpl in Hrun.
    eapply IH; [|done]. by eapply reachable_step.
Qed.

Lemma run_Inv n tr s s' : Inv n s → run tr s = Some s' → Inv n s'.
Proof.
  revert s. induction tr as [|l tr IH]; intros s Hs Hrun; simpl in Hrun.
  - by simplify_eq.
  - destruct (step l s) as [s1|] eqn:Hstep; [|done]. simpl in Hrun.
    eapply IH; [|done]. by eapply step_preserves_Inv.
Qed.

(** A shared state that is ready is never written again. *)
Lemma step_result_stable n l s s' b q :
  Inv n s → step l s = Some s' →
  heap s !! b = Some q → result q ≠ Pending → heap s' !! b = Some q.
Proof.
  intros HI H Hb Hr. step_cases H; try done.
  - rewrite lookup_insert_ne; [done|congruence].
  - rewrite lookup_insert_ne; [done|]. intros ->.
    destruct (inv_exec _ _ HI _ _ Hi) as (_ & q' & Hq' & Hpend). congruence.
Qed.

Lemma run_result_stable n tr s s' a p :
  Inv n s → run tr s = Some s' →
  heap s !! a = Some p → result p ≠ Pending → heap s' !! a = Some p.
Proof.
  revert s. induction tr as [|l tr IH]; intros s HI Hrun Ha Hr;
    simpl in Hrun.
  - by simplify_eq.
  - destruct (step l s) as [s1|] eqn:Hstep; [|done]. simpl in Hrun.
    eapply IH; [by eapply step_preserves_Inv|done| |done].
    by eapply step_result_stable.
Qed.



(** What [get] returns once the callable [f] has run. *)
Lemma future_get_agrees n s a p :
  Inv n s → heap s !! a = Some p →
  future_get s a = Blocks ∨ future_get s a = expected (callee p).
Proof.
  intros HI Ha. unfold future_get, expected. rewrite Ha.
  destruct (result p) eqn:Hr; [by left|right..].
  - destruct (inv_done _ _ HI _ _ Ha) as [_ Hag]; [by rewrite Hr|].
    unfold outcome_agrees in Hag. rewrite Hr in Hag. by rewrite Hag.
  - destruct (inv_done _ _ HI _ _ Ha) as [_ Hag]; [by rewrite Hr|].
    unfold outcome_agrees in Hag. rewrite Hr in Hag. by rewrite Hag.
Qed.


Lemma step_pushed l s s' :
  (∀ b f, l ≠ Submit b f) → step l s = Some s' → pushed s' = pushed s.
Proof. intros Hl H. step_cases H; try done. by destruct (Hl a f). Qed.



Lemma step_stop_unchanged l s s' :
  l ≠ DtorStop → step l s = Some s' → stop s' = stop s.
Proof. intros Hl H. by step_cases H. Qed.





Lemma owner_step_has_work c c' : has_work c → owner_step c c' → has_work c'.
Proof.
  intros [Hstop Hleft] Hstep.
  destruct Hstep as [a0 f0 fs s s' H|s s' H|l fs s s' Hl H];
    simpl in Hstop, Hleft; unfold has_work; simpl.
  - specialize (Hstop ltac:(done)).
    apply step_inv in H. inversion H; subst; [congruence|]. simpl.
    split; [done|]. right. by destruct (pushed s).
  - split; [done|]. right. destruct Hleft as [?|?]; [done|].
    by rewrite (step_pushed DtorStop s s').
  - split.
    + intros Hne. rewrite (step_stop_unchanged l s s'); [auto| |done].
      by intros ->.
    + rewrite (step_pushed l s s'); [done| |done]. by intros ?? ->.
Qed.

(** ** Counting the waiters; the destructor returns *)

Lemma waiters_cons w (ws : list worker) :
  waiters (w :: ws) = (if decide (w = Waiting) then 1 else 0) + waiters ws.
Proof.
  unfold waiters. rewrite filter_cons. by destruct (decide (w = Waiting)).
Qed.

Lemma waiters_woken (ws : list worker) i :
  ws !! i = Some Waiting → S (waiters (<[i := Contending]> ws)) = waiters ws.
Proof.
  revert i. induction ws as [|w ws IH]; intros [|i] Hi; simplify_eq/=.
  - rewrite !waiters_cons. by repeat case_decide.
  - rewrite !waiters_cons. rewrite <- (IH _ Hi). lia.
Qed.

Lemma waiters_zero (ws : list worker) :
  waiters ws = 0 ↔ ∀ i, ws !! i ≠ Some Waiting.
Proof.
  induction ws as [|w ws IH].
  - split; [intros _ i; by rewrite lookup_nil|done].
  - rewrite waiters_cons. split.
    + intros H [|i]; simpl.
      * case_decide; [lia|congruence].
      * apply IH. lia.
    + intros H. case_decide as Hw.
      * by destruct (H 0); rewrite Hw.
      * simpl. apply IH. intros i. apply (H (S i)).
Qed.

Lemma waiters_notify_all (ws : list worker) : waiters (notify_all ws) = 0.
Proof.
  apply waiters_zero. intros i Hi.
  by apply lookup_notify_all in Hi as ([] & _ & ?).
Qed.

(** The destructor can always go on, or has returned. *)
Lemma owner_progress_shutdown n c :
  owner_inv n c → phase c.2 = Returned ∨ ∃ c', owner_step c c'.
Proof.
  destruct c as [fs s]. simpl. intros (HI & Hh & _). simpl in HI, Hh.
  destruct fs as [|f fs].
  2:{ right. destruct (Submit_enabled s f) as (b & s' & Hs').
      exists (fs, s'). by econstructor. }
  destruct (phase s) as [| |k|] eqn:Hph; [right..|by left].
  - eexists ([], _). apply owner_destroys. simpl. by rewrite Hph.
  - eexists ([], _). apply (pool_moves DtorNotifyAll); [done|].
    simpl. by rewrite Hph.
  - destruct (workers s !! k) as [w|] eqn:Hk.
    + destruct w.
      * destruct (Pull_enabled _ _ Hk) as [s' Hs'].
        exists ([], s'). by apply (pool_moves (Pull k)).
      * by destruct (inv_awake _ _ HI ltac:(congruence) ltac:(congruence) k).
      * destruct (Run_enabled _ _ _ _ HI Hh Hk) as [s' Hs'].
        exists ([], s'). by apply (pool_moves (Run k)).
      * eexists ([], _). apply (pool_moves DtorJoin); [done|].
        simpl. by rewrite Hph, Hk.
      * by destruct (inv_nocrash _ _ HI k).
    + assert (k = length (workers s)) as ->.
      { apply lookup_ge_None in Hk.
        destruct (decide (k = length (workers s))) as [|Hne]; [done|].
        assert (length (workers s) < k) as Hlt by lia.
        pose proof (inv_joined _ _ HI _ Hph _ Hlt) as Hex.
        apply lookup_lt_Some in Hex. lia. }
      eexists ([], _). apply (pool_moves DtorReturn); [done|].
      simpl. rewrite Hph. by rewrite bool_decide_eq_true_2.
Qed.

Lemma pool_shuts_down n c :
  owner_inv n c → inevitably (λ c, phase c.2 = Returned) c.
Proof.
  remember (measure c) as k eqn:Hk. revert c Hk.
  induction k as [k IH] using lt_wf_ind. intros c -> Hc.
  destruct (owner_progress_shutdown n c Hc) as [Hdone|Hstep].
  - by apply inevitably_now.
  - apply inevitably_later; [done|]. intros c' Hc'.
    eapply IH; [by apply owner_step_measure|done|].
    by eapply owner_step_inv.
Qed.

Lemma owner_inv_new n fs :
  Forall terminates fs → owner_inv n (fs, ThreadPool_new n).
Proof.
  intros Hfs. unfold owner_inv; simpl. split_and!; [apply Inv_new| |done].
  intros b q Hq. simpl in Hq. by rewrite lookup_empty in Hq.
Qed.

(** ** The members destroyed *)


Lemma abandon_idemp q : abandon (abandon q) = abandon q.
Proof. unfold abandon. by destruct (result q) eqn:Hr; simpl; rewrite ?Hr. Qed.

Lemma lookup_abandoned (h : gmap nat (packaged_task R)) (ts : list nat) b :
  foldr (alter abandon) h ts !! b
  = if decide (b ∈ ts) then abandon <$> h !! b else h !! b.
Proof.
  induction ts as [|t ts IH].
  - simpl. destruct (decide (b ∈ [])) as [Hin|]; [|done].
    by apply elem_of_nil in Hin.
  - rewrite foldr_cons. destruct (decide (t = b)) as [->|Hne].
    + rewrite lookup_alter_eq, IH. rewrite (decide_True _ _ (list_elem_of_here b ts)).
      case_decide; [|done]. destruct (h !! b) as [q|]; [|done].
      simpl. by rewrite abandon_idemp.
    + rewrite lookup_alter_ne, IH by done.
      destruct (decide (b ∈ ts)) as [Hin|Hin], (decide (b ∈ t :: ts)) as [Hin'|Hin'];
        try done.
      * destruct Hin'. by right.
      * apply elem_of_cons in Hin' as [->|?]; done.
Qed.

Lemma destroy_members_Some s s' :
  destroy_members s = Some s' ↔
  phase s = Returned ∧ notifying s = 0
  ∧ s' = {| workers := []; tasks := []; stop := stop s;
            heap := foldr (alter abandon) (heap s) (tasks s);
            notifying := 0; phase := Returned;
            pushed := pushed s; popped := popped s |}.
Proof.
  unfold destroy_members. destruct (phase s), (notifying s); split.
  all: try (intros (? & ? & _); done); try done.
  - by intros [= <-].
  - by intros (_ & _ & ->).
Qed.

Lemma destroy_members_enabled s :
  phase s = Returned → notifying s = 0 → ∃ s', destroy_members s = Some s'.
Proof. intros Hph Hn. unfold destroy_members. rewrite Hph. rewrite Hn. eauto. Qed.

Lemma future_get_destroy_other s s' b :
  destroy_members s = Some s' → b ∉ tasks s →
  future_get s' b = future_get s b.
Proof.
  intros (_ & _ & ->)%destroy_members_Some Hb. unfold future_get. simpl.
  by rewrite lookup_abandoned, decide_False.
Qed.


Lemma queued_pending n s b :
  Inv n s → b ∈ tasks s →
  ∃ q, heap s !! b = Some q ∧ result q = Pending.
Proof.
  intros HI Hb.
  assert (b ∈ pushed s) as Hin
    by (rewrite (inv_fifo _ _ HI); apply elem_of_app; by right).
  destruct (inv_alloc _ _ HI _ Hin) as [q Hq]. exists q. split; [done|].
  destruct (result q) eqn:Hr; [done|exfalso..].
  all: destruct (inv_done _ _ HI _ _ Hq) as [Hpop _]; [by rewrite Hr|].
  all: pose proof (inv_nodup _ _ HI) as Hnd; rewrite (inv_fifo _ _ HI) in Hnd.
  all: apply NoDup_app in Hnd as (_ & Hdisj & _); by apply (Hdisj b).
Qed.

Lemma queued_blocks n s b :
  Inv n s → b ∈ tasks s → future_get s b = Blocks.
Proof.
  intros HI Hb. destruct (queued_pending _ _ _ HI Hb) as (q & Hq & Hr).
  unfold future_get. by rewrite Hq, Hr.
Qed.

Lemma future_get_destroy_queued n s s' b :
  Inv n s → destroy_members s = Some s' → b ∈ tasks s →
  future_get s' b = Rethrows (future_error "broken_promise").
Proof.
  intros HI (_ & _ & ->)%destroy_members_Some Hb.
  destruct (queued_pending _ _ _ HI Hb) as (q & Hq & Hr).
  unfold future_get. simpl.
  rewrite lookup_abandoned, decide_True, Hq by done. simpl.
  unfold abandon. by rewrite Hr.
Qed.

End Proofs.

(** ** Properties of the pool *)

Section Properties.
Context {R : Type}.
Implicit Types (s : ThreadPool R) (f : callable R) (l : label R).
Implicit Types (p q : packaged_task R) (c : list (callable R) * ThreadPool R).
Implicit Types (fs : list (callable R)).

(** C1.  A call of [enqueue] made while [stop] is true fails with
    [std::runtime_error("enqueue on stopped ThreadPool")]: the queue, the
    history of pushes, the workers and the count of owed [notify_one]
    calls are unchanged, and, the address [make_shared] used being free
    before the call, the whole state is: the packaged task built at line
    102 is gone again when the exception has left the call, and no
    entry of the queue was ever built. *)
Theorem enqueue_on_stopped_pool s a f :
  stop s = true →
  (enqueue a f s).1 = inl (runtime_error "enqueue on stopped ThreadPool")
  ∧ tasks (enqueue a f s).2 = tasks s
  ∧ pushed (enqueue a f s).2 = pushed s
  ∧ notifying (enqueue a f s).2 = notifying s
  ∧ workers (enqueue a f s).2 = workers s
  ∧ (heap s !! a = None →
     (enqueue a f s).2 = s ∧ step (Submit a f) s = Some s).
Proof.
  intros Hstop. unfold enqueue. simpl. rewrite Hstop. simpl.
  split_and!; try done.
  intros Ha. unfold step. rewrite Ha. unfold enqueue. simpl. rewrite Hstop.
  unfold unwind, make_shared, set_heap. simpl.
  by rewrite delete_insert_id, ThreadPool_eta.
Qed.

(** C3.  One pass of a worker through lines 63-79.  A worker inside
    [wait] takes no step of its own: it stays there until a
    [notify_one] picks it, a [notify_all] or a spurious wake-up, and
    then tests the predicate again.  A worker that tests the predicate
    goes back into [wait] exactly when [stop] is false and the queue is
    empty; it leaves the loop exactly when [stop] is set and the queue
    is empty; in every other case it removes the head of the queue, and
    nothing else, and goes on to run it.  The pass changes nothing else:
    the other workers, [stop], the packaged tasks and the destructor are
    as they were.  [front] is never called on an empty queue. *)
Theorem worker_pull s i :
  (workers s !! i = Some Waiting →
     step (Pull i) s = None ∧ step (Run i) s = None
     ∧ ∀ l s', step l s = Some s' →
         workers s' !! i = Some Waiting
         ∨ (workers s' !! i = Some Contending
            ∧ (l = Notify (Some i) ∨ l = DtorNotifyAll ∨ l = Spurious i)))
  ∧ (workers s !! i = Some Contending →
     wait_and_pop s ≠ Undefined
     ∧ (wait_and_pop s = Sleep ↔ stop s = false ∧ tasks s = [])
     ∧ (wait_and_pop s = Terminate ↔ stop s = true ∧ tasks s = [])
     ∧ ∃ s', step (Pull i) s = Some s'
         ∧ length (workers s') = length (workers s)
         ∧ (∀ j, j ≠ i → workers s' !! j = workers s !! j)
         ∧ stop s' = stop s ∧ heap s' = heap s
         ∧ notifying s' = notifying s ∧ phase s' = phase s
         ∧ pushed s' = pushed s
         ∧ match tasks s with
           | t :: rest =>
               workers s' !! i = Some (Executing t)
               ∧ tasks s' = rest ∧ popped s' = popped s ++ [t]
           | [] =>
               workers s' !! i = Some (if stop s then Exited else Waiting)
               ∧ tasks s' = [] ∧ popped s' = popped s
           end).
Proof.
  split.
  - intros Hw. split_and!; [simpl; by rewrite Hw..|].
    rename i into me. intros l s' H.
    pose proof (lookup_lt_Some _ _ _ Hw) as Hlt.
    step_cases H; eauto.
    all: try (destruct (decide (i = me)) as [->|Hne];
              [|left; by rewrite list_lookup_insert_ne]).
    all: try congruence.
    + right. split; [by apply list_lookup_insert_eq|by left].
    + right. split; [by apply list_lookup_insert_eq|by right; right].
    + right. split; [|by right; left].
      apply lookup_notify_all. by exists Waiting.
  - intros Hc. pose proof (lookup_lt_Some _ _ _ Hc) as Hlt.
    rewrite wait_and_pop_cases. simpl. rewrite Hc, wait_and_pop_cases.
    destruct (tasks s) as [|t rest] eqn:Ht, (stop s) eqn:Hs.
    all: split_and!; try done; try (split; [done|by intros [? ?]]).
    all: eexists; split; [reflexivity|]; simpl.
    all: rewrite ?length_insert.
    all: split_and!; try done; try (by apply list_lookup_insert_eq).
    all: intros j Hj; by rewrite list_lookup_insert_ne.
Qed.

(** C7.  [stop] is false after construction; no step, and so no run,
    turns it from true to false; and while it is true no step pushes:
    the history of pushes is unchanged and the queue only loses tasks
    from its head. *)
Theorem stop_monotone :
  (∀ n, stop (ThreadPool_new n : ThreadPool R) = false)
  ∧ (∀ l s s', step l s = Some s' → stop s = true →
       stop s' = true ∧ pushed s' = pushed s
       ∧ (tasks s' = tasks s ∨ ∃ t, tasks s = t :: tasks s'))
  ∧ (∀ tr s s', run tr s = Some s' → stop s = true →
       stop s' = true ∧ pushed s' = pushed s
       ∧ ∃ k, tasks s' = drop k (tasks s)).
Proof.
  assert (∀ l s s', step l s = Some s' → stop s = true →
       stop s' = true ∧ pushed s' = pushed s
       ∧ (tasks s' = tasks s ∨ ∃ t, tasks s = t :: tasks s')) as Hstep.
  { intros l s s' H Hstop. step_cases H; split_and!; eauto; congruence. }
  split_and!; [done|done|].
  induction tr as [|l tr IH]; intros s s' Hrun Hstop; simpl in Hrun.
  - simplify_eq. split_and!; [done..|]. by exists 0.
  - destruct (step l s) as [s1|] eqn:Hs1; [|done]. simpl in Hrun.
    destruct (Hstep _ _ _ Hs1 Hstop) as (Hstop1 & Hp1 & Ht1).
    destruct (IH _ _ Hrun Hstop1) as (Hstop' & Hp' & k & Hk).
    split_and!; [done|congruence|].
    destruct Ht1 as [Heq|[t Heq]].
    + exists k. by rewrite Hk, Heq.
    + exists (S k). by rewrite Hk, Heq.
Qed.

(** C9.  While [stop] is false [enqueue] is accepted whatever the
    length of the queue, puts the task at the tail, and owes one
    [notify_one].  That call can always be made; it wakes one waiting
    worker and leaves the others as they are, so that one worker fewer
    is waiting; it changes nothing when no worker is waiting, and that
    is the only case in which it wakes nobody.  After the [notify_all]
    of the destructor no worker is waiting. *)
Theorem push_wakes_one s :
  (∀ a f, stop s = false →
     (enqueue a f s).1 = inr a
     ∧ tasks (enqueue a f s).2 = tasks s ++ [a]
     ∧ notifying (enqueue a f s).2 = S (notifying s)
     ∧ workers (enqueue a f s).2 = workers s)
  ∧ (0 < notifying s → ∃ target s', step (Notify target) s = Some s')
  ∧ (∀ target s', step (Notify target) s = Some s' →
       S (notifying s') = notifying s ∧ tasks s' = tasks s
       ∧ waiters (workers s') = pred (waiters (workers s))
       ∧ match target with
         | Some i => workers s !! i = Some Waiting
                     ∧ workers s' = <[i := Contending]> (workers s)
         | None => waiters (workers s) = 0
                   ∧ workers s' = workers s
         end)
  ∧ (∀ s', step DtorNotifyAll s = Some s' →
       length (workers s') = length (workers s)
       ∧ (∀ i, workers s !! i = Some Waiting → workers s' !! i = Some Contending)
       ∧ waiters (workers s') = 0).
Proof.
  split_and!.
  - intros a f Hstop. unfold enqueue. simpl. by rewrite Hstop.
  - apply Notify_enabled.
  - intros target s' H. apply step_inv in H.
    inversion H as [| |i m Hm Hi|m Hm Hnw| | | | | | | | | |]; subst; simpl.
    + split_and!; try done. by rewrite <- (waiters_woken _ _ Hi).
    + apply waiters_zero in Hnw. split_and!; try done. by rewrite Hnw.
  - intros s' H. apply step_inv in H. inversion H; subst; simpl.
    split_and!.
    + unfold notify_all. by rewrite length_fmap.
    + intros i Hi. apply lookup_notify_all. by exists Waiting.
    + apply waiters_notify_all.
Qed.

(** A pool without workers never takes a task from its queue. *)
Lemma no_workers_step l s s' :
  step l s = Some s' → workers s = [] →
  workers s' = [] ∧ popped s' = popped s
  ∧ (∀ j, l ≠ Pull j ∧ l ≠ Run j ∧ l ≠ DtorJoin).
Proof.
  intros H Hws. step_cases H; rewrite ?Hws in *; by simplify_eq/=.
Qed.

Lemma no_workers_reachable s :
  reachable 0 s →
  workers s = [] ∧ popped s = [] ∧ tasks s = pushed s
  ∧ ∀ b, b ∈ pushed s →
      future_get s b = Blocks
      ∧ ∀ s', destroy_members s = Some s' →
          future_get s' b = Rethrows (future_error "broken_promise").
Proof.
  intros Hreach. pose proof (reachable_Inv _ _ Hreach) as HI.
  assert (workers s = [] ∧ popped s = []) as [Hws Hpop].
  { clear HI. induction Hreach as [|l s s' _ [IHw IHp] Hstep]; [done|].
    destruct (no_workers_step _ _ _ Hstep IHw) as (? & ? & _).
    split; [done|congruence]. }
  assert (tasks s = pushed s) as Hts by (by rewrite (inv_fifo _ _ HI), Hpop).
  split_and!; [done..|]. intros b Hb. rewrite <- Hts in Hb. split.
  - by apply (queued_blocks 0).
  - intros s' Hs'. by apply (future_get_destroy_queued 0 s).
Qed.

(** C10.  A pool built with thread count 0 has no workers, in any state
    it can reach, and no step of it is the step of a worker.  While
    [stop] is false it accepts every [enqueue] and returns a future.
    Nothing is ever popped, so no task is ever executed: as long as the
    body of the destructor has not returned [get] blocks on every
    future, and when the members are destroyed every future is left
    with a broken promise, not with an outcome of its callable.  The
    destructor runs to the end of its body at once, with nothing joined
    and nothing popped; the members are destroyed then, and the whole
    queue with them. *)
Theorem zero_thread_pool s :
  reachable 0 s →
  workers (ThreadPool_new 0 : ThreadPool R) = []
  ∧ workers s = [] ∧ popped s = []
  ∧ (∀ l s', step l s = Some s' →
       popped s' = [] ∧ ∀ j, l ≠ Pull j ∧ l ≠ Run j ∧ l ≠ DtorJoin)
  ∧ (phase s ≠ Returned → ∀ b, b ∈ pushed s → future_get s b = Blocks)
  ∧ (∀ s', destroy_members s = Some s' →
       ∀ b, b ∈ pushed s →
         future_get s' b = Rethrows (future_error "broken_promise"))
  ∧ (∀ b f, stop s = false → heap s !! b = None →
       ∃ s', enqueue b f s = (inr b, s')
             ∧ step (Submit b f) s = Some s'
             ∧ tasks s' = tasks s ++ [b])
  ∧ (phase s = Constructed →
       ∃ s', run [DtorStop; DtorNotifyAll; DtorReturn] s = Some s'
             ∧ phase s' = Returned
             ∧ pushed s' = pushed s ∧ popped s' = []
             ∧ (notifying s = 0 →
                ∃ s'', destroy_members s' = Some s''
                  ∧ tasks s'' = [] ∧ popped s'' = []
                  ∧ ∀ b, b ∈ pushed s →
                      future_get s'' b
                      = Rethrows (future_error "broken_promise"))).
Proof.
  intros Hreach.
  destruct (no_workers_reachable _ Hreach) as (Hws & Hpop & Hts & Hget).
  split_and!; try done.
  - intros l s' H. destruct (no_workers_step _ _ _ H Hws) as (_ & Hp & Hl).
    split; [congruence|done].
  - intros _ b Hb. by apply Hget.
  - intros s' Hs' b Hb. by apply Hget.
  - intros b f Hstop Hb. eexists. split_and!.
    + unfold enqueue. simpl. by rewrite Hstop.
    + simpl. rewrite Hb. unfold enqueue. simpl. by rewrite Hstop.
    + done.
  - intros Hph.
    assert (∃ s', run [DtorStop; DtorNotifyAll; DtorReturn] s = Some s'
                  ∧ phase s' = Returned ∧ pushed s' = pushed s
                  ∧ notifying s' = notifying s) as Hrun.
    { eexists. split.
      - simpl. rewrite Hph. simpl. rewrite Hws. simpl. done.
      - done. }
    destruct Hrun as (s' & Hrun & Hph' & Hpush & Hnot').
    destruct (no_workers_reachable s') as (_ & Hpop' & _ & Hget').
    { by apply (run_reachable 0 _ _ _ Hreach Hrun). }
    exists s'. split_and!; try done. intros Hnot.
    destruct (destroy_members_enabled s' Hph') as [s'' Hs'']; [congruence|].
    exists s''. split_and!; try done.
    + by apply destroy_members_Some in Hs'' as (_ & _ & ->).
    + apply destroy_members_Some in Hs'' as (_ & _ & ->). done.
    + intros b Hb. apply Hget'; [by rewrite Hpush|done].
Qed.

(** C4.  When the callable of the task a worker is executing throws
    [e], the call of line 82 returns normally: the worker is back at
    the top of its loop, where its next pass is enabled, the queue,
    [stop] and the destructor are untouched, and [e] is in the shared
    state of that task, where [get] rethrows it, now and after any
    further run.  No worker is ever crashed. *)
Theorem task_failure_is_captured n s i t p e :
  reachable n s →
  workers s !! i = Some (Executing t) →
  heap s !! t = Some p → callee p tt = Throws e →
  ∃ s', step (Run i) s = Some s'
    ∧ workers s' = <[i := Contending]> (workers s)
    ∧ tasks s' = tasks s ∧ stop s' = stop s ∧ phase s' = phase s
    ∧ future_get s' t = Rethrows e
    ∧ (∃ s'', step (Pull i) s' = Some s'')
    ∧ (∀ tr s'', run tr s' = Some s'' →
         future_get s'' t = Rethrows e
         ∧ ∀ j, workers s'' !! j ≠ Some Crashed).
Proof.
  intros Hreach Hi Ht He. pose proof (reachable_Inv _ _ Hreach) as HI.
  destruct (inv_exec _ _ HI _ _ Hi) as (_ & q & Hq & Hr). simplify_eq.
  set (p' := {| callee := callee p; result := HasException e |}).
  assert (invoke p = Completed p') as Hinv.
  { unfold invoke. by rewrite Hr, He. }
  set (s' := set_workers (<[i := Contending]> (workers s))
               (set_heap (<[t := p']> (heap s)) s)).
  assert (step (Run i) s = Some s') as Hstep.
  { simpl. by rewrite Hi, Ht, Hinv. }
  assert (heap s' !! t = Some p') as Hp' by apply lookup_insert_eq.
  exists s'. split_and!; try done.
  - unfold future_get. by rewrite Hp'.
  - apply Pull_enabled. simpl. apply list_lookup_insert_eq.
    by eapply lookup_lt_Some.
  - intros tr s'' Hrun.
    assert (Inv n s') as HI' by (by eapply step_preserves_Inv).
    split.
    + unfold future_get.
      by rewrite (run_result_stable _ _ _ _ _ _ HI' Hrun Hp').
    + apply (inv_nocrash n). by eapply run_Inv.
Qed.

(** C5.  In every state of a pool the pushes made so far are, in
    order, the pops made so far followed by the queue, without
    repetition.  [enqueue] adds at the tail, a worker removes nothing
    but the head, no other step pops.  So when [A] was pushed before
    [B] and [B] has left the queue, [A] has left it too. *)
Theorem fifo_availability n s :
  reachable n s →
  pushed s = popped s ++ tasks s
  ∧ NoDup (pushed s)
  ∧ (∀ b f, stop s = false → tasks (enqueue b f s).2 = tasks s ++ [b])
  ∧ (∀ i s', step (Pull i) s = Some s' →
       (tasks s' = tasks s ∧ popped s' = popped s)
       ∨ ∃ t, tasks s = t :: tasks s' ∧ popped s' = popped s ++ [t])
  ∧ (∀ l s', step l s = Some s' → (∀ i, l ≠ Pull i) →
       popped s' = popped s)
  ∧ (∀ pre A mid B post,
       pushed s = pre ++ A :: mid ++ B :: post →
       B ∈ popped s → A ∈ popped s).
Proof.
  intros Hreach. pose proof (reachable_Inv _ _ Hreach) as HI.
  split_and!.
  - apply HI.
  - apply HI.
  - intros b f Hstop. unfold enqueue. simpl. by rewrite Hstop.
  - intros i s' H. apply step_inv in H. inversion H; subst; simpl; eauto.
  - intros l s' H Hl. step_cases H; try done. by destruct (Hl i).
  - intros pre A mid B post Hpush HB.
    pose proof (inv_nodup _ _ HI) as Hnd.
    rewrite (inv_fifo _ _ HI) in Hpush, Hnd.
    apply NoDup_app in Hnd as (_ & Hdisj & _).
    apply app_eq_app in Hpush as [m [[Hp Ht]|[Hp Ht]]].
    + destruct m as [|x m]; simpl in Ht.
      * destruct (Hdisj B HB). rewrite <- Ht. set_solver.
      * simplify_eq. rewrite Hp. set_solver.
    + destruct (Hdisj B HB). rewrite Ht. set_solver.
Qed.

(** A worker leaves its loop at line 73 only. *)
Lemma exits_only_at_line_73 l s s' j :
  step l s = Some s' →
  workers s !! j ≠ Some Exited → workers s' !! j = Some Exited →
  l = Pull j ∧ stop s = true ∧ tasks s = [].
Proof.
  intros H Hj Hj'. step_cases H; simpl in Hj'; try done;
    split_lookups; try done.
  apply lookup_notify_all in Hj' as ([] & ? & ?); by simplify_eq/=.
Qed.

(** After the destructor of a pool with a worker has returned. *)
Lemma returned_drained n s :
  0 < n → Inv n s → phase s = Returned →
  (∀ b, b ∈ pushed s → future_get s b ≠ Blocks)
  ∧ tasks s = []
  ∧ ∀ j w, workers s !! j = Some w → w = Exited.
Proof.
  intros Hn HI Hph. pose proof (inv_returned _ _ HI Hph) as Hex.
  assert (tasks s = []) as Hnil.
  { rewrite <- (inv_len _ _ HI) in Hn.
    destruct (lookup_lt_is_Some_2 _ _ Hn) as [w Hw].
    pose proof (Hex _ _ Hw) as ->.
    by apply (inv_exited _ _ HI) in Hw as [_ ?]. }
  split_and!; [|done..]. intros b Hb.
  rewrite (inv_fifo _ _ HI), Hnil, (right_id _ _) in Hb.
  destruct (inv_popped _ _ HI _ Hb) as [[j Hj]|(q & Hq & Hr)].
  - by apply Hex in Hj.
  - unfold future_get. rewrite Hq. by destruct (result q).
Qed.

(** A future that is ready holds what its callable produced. *)
Lemma ready_is_outcome n s b :
  Inv n s → future_get s b ≠ Blocks → b ∈ pushed s →
  ∃ q, heap s !! b = Some q ∧ result q ≠ Pending
       ∧ future_get s b = expected (callee q).
Proof.
  intros HI Hne Hb. destruct (inv_alloc _ _ HI _ Hb) as [q Hq].
  exists q. split; [done|].
  destruct (future_get_agrees _ _ _ _ HI Hq) as [?|?]; [done|].
  split; [|done]. intros Hr. unfold future_get in Hne.
  by rewrite Hq, Hr in Hne.
Qed.

(** C2, for a pool with at least one worker.  The first step of the
    destructor sets [stop] and nothing else; its [notify_all] leaves no
    worker waiting; its body returns only when every worker has
    exited; and in a state in which it has returned the queue is empty,
    every task pushed was popped, every worker has exited, and every
    future that was handed out is ready and holds what its callable
    returned or threw, so that the destruction of the members finds no
    task to take with it and changes no future.  A worker exits only by
    its own pass through line 73, with [stop] set and the queue empty.
    When the callables submitted return or throw, every run of the
    closed system does reach the return of the destructor. *)
Theorem shutdown_drains n s :
  0 < n → reachable n s →
  (∀ s', step DtorStop s = Some s' →
     stop s' = true ∧ phase s' = Stopping ∧ tasks s' = tasks s
     ∧ workers s' = workers s ∧ pushed s' = pushed s)
  ∧ (∀ s', step DtorNotifyAll s = Some s' →
       ∀ j, workers s' !! j ≠ Some Waiting)
  ∧ (∀ s', step DtorReturn s = Some s' →
       ∀ j w, workers s !! j = Some w → w = Exited)
  ∧ (phase s = Returned →
       (∀ b, b ∈ pushed s → future_get s b ≠ Blocks)
       ∧ tasks s = []
       ∧ (∀ j w, workers s !! j = Some w → w = Exited)
       ∧ popped s = pushed s
       ∧ (∀ b, b ∈ pushed s →
            ∃ q, heap s !! b = Some q ∧ result q ≠ Pending
                 ∧ future_get s b = expected (callee q))
       ∧ ∀ s', destroy_members s = Some s' →
           heap s' = heap s ∧ ∀ b, future_get s' b = future_get s b)
  ∧ (∀ l s' j, step l s = Some s' →
       workers s !! j ≠ Some Exited → workers s' !! j = Some Exited →
       l = Pull j ∧ stop s = true ∧ tasks s = [])
  ∧ (∀ fs, Forall terminates fs →
       inevitably
         (λ c, phase c.2 = Returned
               ∧ popped c.2 = pushed c.2
               ∧ ∀ b, b ∈ pushed c.2 → future_get c.2 b ≠ Blocks)
         (fs, ThreadPool_new n)).
Proof.
  intros Hn Hreach. pose proof (reachable_Inv _ _ Hreach) as HI.
  split_and!.
  - intros s' H. apply step_inv in H. by inversion H; subst.
  - intros s' H. apply step_inv in H. inversion H; subst; simpl.
    intros j Hj. by apply lookup_notify_all in Hj as ([] & _ & ?).
  - intros s' H. apply step_inv in H.
    inversion H as [| | | | | | | | | | | | |Hph]; subst.
    intros j w Hj. pose proof (lookup_lt_Some _ _ _ Hj) as Hlt.
    pose proof (inv_joined _ _ HI _ Hph _ Hlt). congruence.
  - intros Hph.
    destruct (returned_drained n s Hn HI Hph) as (Hready & Hnil & Hex).
    split_and!; [done..| | |].
    + by rewrite (inv_fifo _ _ HI), Hnil, (right_id _ _).
    + intros b Hb. apply (ready_is_outcome n); auto.
    + intros s' (_ & _ & ->)%destroy_members_Some.
      unfold future_get. simpl. by rewrite Hnil.
  - intros l s' j. apply exits_only_at_line_73.
  - intros fs Hfs. eapply inevitably_mono;
      [|apply (inevitably_invariant (λ c, phase c.2 = Returned) (owner_inv n))].
    + intros c [Hph (HIc & _)].
      destruct (returned_drained n c.2 Hn HIc Hph) as (Hready & Hnil & _).
      split_and!; [done| |done].
      by rewrite (inv_fifo _ _ HIc), Hnil, (right_id _ _).
    + intros c c'. apply (owner_step_inv n).
    + by apply owner_inv_new.
    + apply (pool_shuts_down n). by apply owner_inv_new.
Qed.




End Properties.

(** ** More properties of the pool *)

Section More.
Context {R : Type}.
Implicit Types (s : ThreadPool R) (f : callable R) (l : label R).
Implicit Types (p q : packaged_task R) (c : list (callable R) * ThreadPool R).
Implicit Types (fs : list (callable R)).

Lemma elem_of_executing (ws : list worker) b :
  b ∈ executing ws ↔ ∃ j, ws !! j = Some (Executing b).
Proof.
  unfold executing. rewrite list_elem_of_omap. split.
  - intros (w & Hw & Hr). apply list_elem_of_lookup in Hw as [j Hj].
    exists j. destruct w; simplify_eq/=. done.
  - intros [j Hj]. exists (Executing b). split; [|done].
    apply list_elem_of_lookup. eauto.
Qed.

Lemma length_executing (ws : list worker) : length (executing ws) ≤ length ws.
Proof.
  unfold executing, omap. induction ws as [|w ws IH]; [done|].
  destruct w; simpl in *; lia.
Qed.

Lemma NoDup_executing (ws : list worker) :
  (∀ i j b, ws !! i = Some (Executing b) → ws !! j = Some (Executing b) → i = j) →
  NoDup (executing ws).
Proof.
  induction ws as [|w ws IH]; intros Huniq; [constructor|].
  assert (NoDup (executing ws)) as Hnd.
  { apply IH. intros i j b Hi Hj.
    by pose proof (Huniq (S i) (S j) b Hi Hj) as [= ->]. }
  unfold executing. simpl. destruct w; simpl; try done.
  constructor; [|done]. intros [j Hj]%elem_of_executing.
  by pose proof (Huniq 0 (S j) task eq_refl Hj).
Qed.

(** X1.  A pool built with [n] workers has [n] workers in every state
    it reaches.  The tasks being run are at most [n], no task is run by
    two workers at once, and each of them has left the queue and has a
    future that still blocks. *)
Theorem concurrency_is_bounded n s :
  reachable n s →
  length (workers s) = n
  ∧ length (executing (workers s)) ≤ n
  ∧ NoDup (executing (workers s))
  ∧ (∀ b, b ∈ executing (workers s) →
       b ∈ popped s ∧ (b ∉ tasks s) ∧ future_get s b = Blocks).
Proof.
  intros Hreach. pose proof (reachable_Inv _ _ Hreach) as HI.
  split_and!.
  - apply HI.
  - rewrite <- (inv_len _ _ HI). apply length_executing.
  - apply NoDup_executing. apply HI.
  - intros b [j Hj]%elem_of_executing.
    destruct (inv_exec _ _ HI _ _ Hj) as (Hpop & q & Hq & Hr).
    split_and!; [done| |].
    + intros Hin. pose proof (inv_nodup _ _ HI) as Hnd.
      rewrite (inv_fifo _ _ HI) in Hnd.
      apply NoDup_app in Hnd as (_ & Hdisj & _). by apply (Hdisj b).
    + unfold future_get. by rewrite Hq, Hr.
Qed.


(** X2.  As long as the body of the destructor has not returned,
    every task that was pushed is in exactly one of three places: in
    the queue, in the hands of a worker, or done; its future blocks in
    the first two and holds what its callable produced in the third.
    Once the body of the destructor has returned and the members are
    destroyed, every task that was pushed is either done, its future
    holding what its callable produced, or was never popped, its future
    holding a broken promise. *)
Theorem task_is_queued_running_or_done n s b :
  reachable n s → b ∈ pushed s →
  (phase s ≠ Returned →
     (b ∈ tasks s ∧ (b ∉ executing (workers s)) ∧ future_get s b = Blocks)
     ∨ ((b ∉ tasks s) ∧ b ∈ executing (workers s) ∧ future_get s b = Blocks)
     ∨ ((b ∉ tasks s) ∧ (b ∉ executing (workers s))
        ∧ ∃ q, heap s !! b = Some q ∧ result q ≠ Pending
               ∧ future_get s b = expected (callee q)))
  ∧ (∀ s', destroy_members s = Some s' →
       tasks s' = []
       ∧ ((b ∈ popped s
           ∧ ∃ q, heap s !! b = Some q ∧ result q ≠ Pending
                  ∧ future_get s b = expected (callee q)
                  ∧ future_get s' b = expected (callee q))
          ∨ ((b ∉ popped s)
             ∧ future_get s' b
               = Rethrows (future_error "broken_promise")))).
Proof.
  intros Hreach Hb. pose proof (reachable_Inv _ _ Hreach) as HI.
  pose proof (inv_nodup _ _ HI) as Hnd. rewrite (inv_fifo _ _ HI) in Hnd, Hb.
  apply NoDup_app in Hnd as (_ & Hdisj & _).
  assert (∀ j, workers s !! j = Some (Executing b) →
            b ∈ popped s ∧ future_get s b = Blocks) as Hexec.
  { intros j Hj. destruct (inv_exec _ _ HI _ _ Hj) as (? & q & Hq & Hr).
    split; [done|]. unfold future_get. by rewrite Hq, Hr. }
  split.
  - intros _. apply elem_of_app in Hb as [Hpop|Hq].
    + right. destruct (inv_popped _ _ HI _ Hpop) as [[j Hj]|(q & Hq & Hr)].
      * left. split_and!; [by apply Hdisj|apply elem_of_executing; eauto|].
        by apply (Hexec j).
      * right. split_and!; [by apply Hdisj| |].
        -- intros [j Hj]%elem_of_executing. apply Hexec in Hj as [_ Hbl].
           unfold future_get in Hbl. rewrite Hq in Hbl. by destruct (result q).
        -- exists q. split_and!; [done..|].
           destruct (future_get_agrees _ _ _ _ HI Hq) as [Hbl|?]; [|done].
           unfold future_get in Hbl. rewrite Hq in Hbl. by destruct (result q).
    + left. assert (b ∉ popped s) as Hnp by (intros ?; by apply (Hdisj b)).
      split_and!; [done| |].
      * intros [j Hj]%elem_of_executing. by apply Hexec in Hj as [? _].
      * by apply (queued_blocks n).
  - intros s' Hs'. pose proof Hs' as (Hph & _ & Heq)%destroy_members_Some.
    split; [by rewrite Heq|].
    apply elem_of_app in Hb as [Hpop|Hq].
    + left. split; [done|].
      destruct (inv_popped _ _ HI _ Hpop) as [[j Hj]|(q & Hq & Hr)].
      * by apply (inv_returned _ _ HI Hph) in Hj.
      * assert (future_get s b = expected (callee q)) as Hget.
        { destruct (future_get_agrees _ _ _ _ HI Hq) as [Hbl|?]; [|done].
          unfold future_get in Hbl. rewrite Hq in Hbl.
          by destruct (result q). }
        exists q. split_and!; [done..|].
        rewrite (future_get_destroy_other s s') by (by try apply Hdisj).
        done.
    + right. split; [intros ?; by apply (Hdisj b)|].
      by apply (future_get_destroy_queued n s).
Qed.

(** X3.  While the pool lives, the only step that changes what [get]
    returns on an existing future is the return of the worker that
    executes its task; that step leaves the queue, [stop] and every
    other future as they were, so a task that throws is seen through
    its own future only.  The destruction of the members changes the
    future of a task that is still in the queue, and no other: that
    future was blocking and is left with a broken promise. *)
Theorem only_its_worker_writes_a_future s b q :
  heap s !! b = Some q →
  (∀ l s', step l s = Some s' → future_get s' b ≠ future_get s b →
     ∃ j, l = Run j ∧ workers s !! j = Some (Executing b)
          ∧ tasks s' = tasks s ∧ stop s' = stop s
          ∧ ∀ b', b' ≠ b → future_get s' b' = future_get s b')
  ∧ (∀ s', destroy_members s = Some s' →
       future_get s' b ≠ future_get s b →
       b ∈ tasks s ∧ future_get s b = Blocks
       ∧ future_get s' b = Rethrows (future_error "broken_promise"))
  ∧ (∀ n s', reachable n s → destroy_members s = Some s' → b ∈ tasks s →
       future_get s b = Blocks
       ∧ future_get s' b = Rethrows (future_error "broken_promise")).
Proof.
  intros Hb. split_and!.
  - intros l s' H Hne. step_cases H; try done.
    + destruct Hne. unfold future_get. simpl.
      rewrite lookup_insert_ne; [done|congruence].
    + destruct (decide (t = b)) as [->|Hneq].
      * exists i. split_and!; try done. intros b' Hb'. unfold future_get.
        simpl. by rewrite lookup_insert_ne.
      * destruct Hne. unfold future_get. simpl. by rewrite lookup_insert_ne.
  - intros s' Hs' Hne. destruct (decide (b ∈ tasks s)) as [Hin|Hnot].
    + split; [done|]. apply destroy_members_Some in Hs' as (_ & _ & ->).
      revert Hne. unfold future_get. simpl.
      rewrite lookup_abandoned, decide_True, Hb by done. simpl.
      unfold abandon. destruct (result q) eqn:Hr; simpl; rewrite ?Hr; done.
    + destruct Hne. by apply (future_get_destroy_other s).
  - intros n s' Hreach Hs' Hin. pose proof (reachable_Inv _ _ Hreach) as HI.
    split; [by apply (queued_blocks n)|].
    by apply (future_get_destroy_queued n s).
Qed.

(** X4.  As long as [stop] is false every worker of the pool is
    testing the predicate, waiting or running a task: none has left its
    loop, whatever the tasks did.  A worker that has left its loop
    never comes back. *)
Theorem workers_live_until_shutdown n s :
  reachable n s →
  (stop s = false →
     ∀ j, j < n → ∃ w, workers s !! j = Some w
                        ∧ (w = Contending ∨ w = Waiting ∨ ∃ t, w = Executing t))
  ∧ (∀ l s' j, step l s = Some s' → workers s !! j = Some Exited →
       workers s' !! j = Some Exited).
Proof.
  intros Hreach. pose proof (reachable_Inv _ _ Hreach) as HI. split.
  - intros Hstop j Hj. rewrite <- (inv_len _ _ HI) in Hj.
    destruct (lookup_lt_is_Some_2 _ _ Hj) as [w Hw]. exists w.
    split; [done|]. destruct w; eauto.
    + apply (inv_exited _ _ HI) in Hw as [? _]. congruence.
    + by destruct (inv_nocrash _ _ HI j).
  - intros l s' j H Hj. by eapply exited_stays.
Qed.

Lemma waiters_le (ws : list worker) : waiters ws ≤ length ws.
Proof.
  induction ws as [|w ws IH]; [done|]. rewrite waiters_cons. simpl.
  case_decide; lia.
Qed.

Lemma waiters_all (ws : list worker) :
  waiters ws = length ws → ∀ j w, ws !! j = Some w → w = Waiting.
Proof.
  induction ws as [|w0 ws IH]; intros Hall j w Hj; [by destruct j|].
  rewrite waiters_cons in Hall. simpl in Hall.
  pose proof (waiters_le ws). case_decide; [|lia].
  destruct j as [|j]; simplify_eq/=; [done|]. eapply IH; [lia|done].
Qed.

(** X5.  No wake-up is lost.  In a pool with a worker, whenever the
    queue is not empty a [notify_one] is still owed or some worker is
    not asleep; and when all the workers are asleep the owed
    [notify_one] can be called and wakes one of them. *)
Theorem no_lost_wakeup n s :
  0 < n → reachable n s → tasks s ≠ [] →
  (0 < notifying s
   ∨ ∃ j w, workers s !! j = Some w
            ∧ (w = Contending ∨ ∃ t, w = Executing t))
  ∧ (waiters (workers s) = n →
     0 < notifying s ∧ ∃ j s', step (Notify (Some j)) s = Some s'
                               ∧ workers s' !! j = Some Contending).
Proof.
  intros Hn Hreach Hne. pose proof (reachable_Inv _ _ Hreach) as HI.
  pose proof (inv_wake n s HI Hn Hne) as Hw. split; [done|].
  intros Hall. rewrite <- (inv_len _ _ HI) in Hall, Hn.
  pose proof (waiters_all _ Hall) as Hwait.
  assert (0 < notifying s) as Hnot.
  { destruct Hw as [?|(j & w & Hj & Hw)]; [done|].
    pose proof (Hwait _ _ Hj) as ->. by destruct Hw as [?|[? ?]]. }
  split; [done|]. destruct (lookup_lt_is_Some_2 _ _ Hn) as [w Hw0].
  pose proof (Hwait _ _ Hw0) as ->. revert Hw0. generalize 0 as j.
  intros j Hj. exists j.
  destruct (notifying s) as [|m] eqn:Hm; [lia|]. eexists. split.
  - simpl. rewrite Hm. simpl. by rewrite Hj.
  - simpl. apply list_lookup_insert_eq. by eapply lookup_lt_Some.
Qed.

Lemma waiters_unchanged (ws : list worker) j w w' :
  ws !! j = Some w → w ≠ Waiting → w' ≠ Waiting →
  waiters (<[j := w']> ws) = waiters ws.
Proof.
  revert j. induction ws as [|w0 ws IH]; intros [|j] Hj Hw Hw'; simplify_eq/=.
  - rewrite !waiters_cons. by repeat case_decide.
  - rewrite !waiters_cons. by rewrite (IH _ Hj).
Qed.

(** X6.  Once the destructor has called [notify_all] no worker is
    inside [wait]; and a worker that tests the predicate while [stop]
    is set never goes to sleep, so none will be. *)
Theorem no_sleep_after_notify_all n s :
  reachable n s →
  (phase s ≠ Constructed → phase s ≠ Stopping → waiters (workers s) = 0)
  ∧ (stop s = true → ∀ j s', step (Pull j) s = Some s' →
       workers s' !! j ≠ Some Waiting
       ∧ waiters (workers s') = waiters (workers s)).
Proof.
  intros Hreach. pose proof (reachable_Inv _ _ Hreach) as HI. split.
  - intros H1 H2. apply waiters_zero. by apply (inv_awake _ _ HI).
  - intros Hstop j s' H. apply step_inv in H.
    inversion H as [| | | |? Hj Ht Hs|? Hj Ht Hs|? t rest Hj Ht| | | | | | |];
      subst; simpl; [congruence|..].
    all: split; [rewrite list_lookup_insert_eq;
                   [done|by eapply lookup_lt_Some]|].
    all: by apply (waiters_unchanged _ _ Contending).
Qed.


(** The measure bounds the length of a run. *)
Lemma weight_le (ws : list worker) :
  sum_list (worker_weight <$> ws) ≤ 3 * length ws.
Proof.
  induction ws as [|w ws IH]; [done|]. rewrite fmap_cons. simpl.
  destruct w; simpl; lia.
Qed.

Lemma run_measure tr fs s s' :
  Forall (λ l, internal l = true ∨ l = DtorStop) tr → run tr s = Some s' →
  length tr + measure (fs, s') ≤ measure (fs, s).
Proof.
  revert s. induction tr as [|l tr IH]; intros s Htr Hrun; simpl in Hrun.
  - simplify_eq. simpl. lia.
  - apply Forall_cons in Htr as [Hl Htr].
    destruct (step l s) as [s1|] eqn:Hstep; [|done]. simpl in Hrun.
    pose proof (step_measure l fs s s1 Hl Hstep).
    specialize (IH _ Htr Hrun). simpl. lia.
Qed.

(** X7.  The workers do not spin.  A run without new submissions and
    without spurious wake-ups has at most
    [2 * owed notifies + 4 * queued tasks + 5 * workers + 3] steps. *)
Theorem pool_activity_is_bounded tr s s' :
  Forall (λ l, internal l = true ∨ l = DtorStop) tr → run tr s = Some s' →
  length tr
  ≤ 2 * notifying s + 4 * length (tasks s) + 5 * length (workers s) + 3.
Proof.
  intros Htr Hrun. pose proof (run_measure tr [] s s' Htr Hrun) as Hm.
  unfold measure in Hm at 2. simpl in Hm.
  pose proof (weight_le (workers s)).
  assert (phase_weight (length (workers s)) (phase s)
          ≤ 2 * length (workers s) + 3)
    by (destruct (phase s); simpl; lia).
  lia.
Qed.

(** X8.  An idle pool is at rest: when every worker is waiting, no
    [notify_one] is owed and the destructor has not begun, the only
    steps possible are a submission, the beginning of the destructor
    and a spurious wake-up: nobody notifies, no worker passes through
    its critical section or returns from a task.  In a pool that was
    reached from construction the queue is then empty, and a worker
    that wakes spuriously can only test the predicate, find it false
    and go back into [wait], which leaves the pool exactly as it was. *)
Theorem idle_pool_is_quiescent s :
  waiters (workers s) = length (workers s) → notifying s = 0 →
  phase s = Constructed →
  (∀ l, internal l = true → step l s = None)
  ∧ (∀ l s', step l s = Some s' →
       (∃ b f, l = Submit b f) ∨ l = DtorStop ∨ ∃ j, l = Spurious j)
  ∧ (∀ n, 0 < n → reachable n s →
       tasks s = [] ∧ stop s = false
       ∧ ∀ j s1, step (Spurious j) s = Some s1 →
           workers s1 !! j = Some Contending
           ∧ step (Pull j) s1 = Some s
           ∧ ∀ l s2, internal l = true → step l s1 = Some s2 →
               l = Pull j ∧ s2 = s).
Proof.
  intros Hall Hnot Hcon. pose proof (waiters_all _ Hall) as Hwait.
  assert (∀ l, internal l = true → step l s = None) as Hnone.
  { intros l Hl. destruct (step l s) as [s'|] eqn:H; [exfalso|done].
    step_cases H; try done; try congruence.
    all: by pose proof (Hwait _ _ Hi). }
  split_and!; [done| |].
  - intros l s' H. destruct l; eauto.
    all: by rewrite Hnone in H.
  - intros n Hn Hreach. pose proof (reachable_Inv _ _ Hreach) as HI.
    assert (tasks s = []) as Hnil.
    { destruct (tasks s) as [|t rest] eqn:Ht; [done|exfalso].
      destruct (inv_wake _ _ HI Hn) as [?|(j & w & Hj & Hw)];
        [by rewrite Ht|lia|].
      pose proof (Hwait _ _ Hj) as ->. by destruct Hw as [?|[? ?]]. }
    assert (stop s = false) as Hstop.
    { destruct (stop s) eqn:Hs; [|done].
      by apply (inv_stop _ _ HI) in Hs. }
    split_and!; [done..|]. intros j s1 H1.
    apply step_inv in H1.
    inversion H1 as [| | | | | | | | |? Hj| | | |]; subst.
    pose proof (lookup_lt_Some _ _ _ Hj) as Hlt.
    assert (step (Pull j) (set_workers (<[j := Contending]> (workers s)) s)
            = Some s) as Hback.
    { simpl. rewrite list_lookup_insert_eq by done.
      rewrite wait_and_pop_cases. simpl. rewrite Hnil, Hstop.
      unfold set_workers. simpl.
      rewrite list_insert_insert_eq, list_insert_id by done.
      by rewrite ThreadPool_eta. }
    split_and!; [by apply list_lookup_insert_eq|done|].
    intros l s2 Hl H2.
    assert (l = Pull j) as Heq.
    { clear Hback. step_cases H2; simpl in *; try done; try congruence.
      all: destruct (decide (i = j)) as [->|Hne];
        [try done; by rewrite list_lookup_insert_eq in Hi|].
      all: rewrite list_lookup_insert_ne in Hi by done.
      all: by pose proof (Hwait _ _ Hi). }
    subst l. split; [done|congruence].
Qed.

(** Pushes and calls of [notify_one], across a step and a run. *)
Lemma step_notify_balance l s s' :
  step l s = Some s' →
  (if is_notify l then 1 else 0) + notifying s' + length (pushed s)
  = length (pushed s') + notifying s.
Proof.
  intros H. step_cases H; rewrite ?length_app; simpl; lia.
Qed.

Lemma run_notify_balance tr s s' :
  run tr s = Some s' →
  notify_calls tr + notifying s' + length (pushed s)
  = length (pushed s') + notifying s.
Proof.
  revert s. induction tr as [|l tr IH]; intros s Hrun; simpl in Hrun.
  - simplify_eq. unfold notify_calls. simpl. lia.
  - destruct (step l s) as [s1|] eqn:Hstep; [|done]. simpl in Hrun.
    pose proof (step_notify_balance _ _ _ Hstep). specialize (IH _ Hrun).
    unfold notify_calls in *. rewrite filter_cons.
    destruct (is_notify l); case_decide; simpl in *; try done; lia.
Qed.

(** X9.  In every run from construction the calls of [notify_one] made
    and still owed are as many as the tasks pushed, and the tasks
    pushed are those popped and those in the queue. *)
Theorem one_notify_per_push n tr s :
  run tr (ThreadPool_new n) = Some s →
  notify_calls tr + notifying s = length (pushed s)
  ∧ length (popped s) + length (tasks s) = length (pushed s).
Proof.
  intros Hrun. split.
  - pose proof (run_notify_balance _ _ _ Hrun) as Hb. simpl in Hb. lia.
  - pose proof (run_Inv n _ _ _ (Inv_new n) Hrun) as HI.
    by rewrite (inv_fifo _ _ HI), length_app.
Qed.

(** What the only worker is running is what was popped last. *)
Lemma single_worker_runs_last_popped s b :
  reachable 1 s → workers s !! 0 = Some (Executing b) →
  ∃ pre, popped s = pre ++ [b].
Proof.
  intros Hreach. revert b.
  induction Hreach as [|l s s' Hreach IH H]; intros b Hb; [done|].
  pose proof (inv_len _ _ (reachable_Inv _ _ Hreach)) as Hlen.
  step_cases H; simpl in Hb; eauto; split_lookups; eauto.
  - apply lookup_lt_Some in Hi. lia.
  - rewrite lookup_notify_all_Executing in Hb. eauto.
Qed.

Lemma snoc_in_middle {A} (l1 l2 l3 : list A) x :
  NoDup (l1 ++ x :: l2) → l1 ++ x :: l2 = l3 ++ [x] → l2 = [].
Proof.
  intros Hnd Heq. destruct l2 as [|y l2 _] using rev_ind; [done|exfalso].
  change (l1 ++ x :: l2 ++ [y]) with (l1 ++ (x :: l2) ++ [y]) in Heq.
  rewrite (assoc _) in Heq. apply app_inj_tail in Heq as [_ ->].
  apply NoDup_app in Hnd as (_ & _ & Hnd).
  apply NoDup_cons in Hnd as [Hnin _]. apply Hnin. set_solver.
Qed.

(** X10.  A pool with one worker completes the tasks in the order of
    their submission: when the future of [B] is ready, so is the future
    of every [A] pushed before [B]. *)
Theorem single_worker_completes_in_order s pre A mid B post :
  reachable 1 s →
  pushed s = pre ++ A :: mid ++ B :: post →
  future_get s B ≠ Blocks → future_get s A ≠ Blocks.
Proof.
  intros Hreach Hpush HB. pose proof (reachable_Inv _ _ Hreach) as HI.
  assert (B ∈ pushed s) as HBin by (rewrite Hpush; set_solver).
  destruct (inv_alloc _ _ HI _ HBin) as [q Hq].
  assert (B ∈ popped s) as HBpop.
  { eapply (inv_done _ _ HI); [done|]. unfold future_get in HB.
    rewrite Hq in HB. by destruct (result q). }
  pose proof (inv_nodup _ _ HI) as Hnd.
  rewrite (inv_fifo _ _ HI) in Hpush, Hnd.
  pose proof Hnd as Hnd'. apply NoDup_app in Hnd' as (Hndp & Hdisj & _).
  assert (∃ post', popped s = pre ++ A :: mid ++ B :: post') as [post' Hpop].
  { apply app_eq_app in Hpush as [m [[Hp Ht]|[Hp Ht]]].
    - destruct m as [|x m]; simpl in Ht.
      + destruct (Hdisj B HBpop). rewrite <- Ht. set_solver.
      + injection Ht as -> Ht. rewrite Hp.
        apply app_eq_app in Ht as [m' [[Hp' Ht']|[Hp' Ht']]].
        * destruct (Hdisj B HBpop). rewrite Ht'. set_solver.
        * destruct m' as [|y m']; simpl in Ht'.
          -- destruct (Hdisj B HBpop). rewrite <- Ht'. set_solver.
          -- injection Ht' as -> Ht'. rewrite Hp'. eauto.
    - destruct (Hdisj B HBpop). rewrite Ht. set_solver. }
  assert (A ∈ popped s) as HApop by (rewrite Hpop; set_solver).
  destruct (inv_popped _ _ HI _ HApop) as [[j Hj]|(qa & Hqa & Hr)].
  - assert (j = 0) as ->.
    { apply lookup_lt_Some in Hj. rewrite (inv_len _ _ HI) in Hj. lia. }
    destruct (single_worker_runs_last_popped _ _ Hreach Hj) as [pre' Hlast].
    rewrite Hpop in Hlast, Hndp.
    pose proof (snoc_in_middle _ _ _ _ Hndp Hlast) as Hnil.
    by destruct mid.
  - unfold future_get. rewrite Hqa. by destruct (result qa).
Qed.


(** Runs put end to end; a run that submits, a run that pops. *)
Lemma run_app tr1 tr2 s :
  run (tr1 ++ tr2) s = run tr1 s ≫= run tr2.
Proof.
  revert s. induction tr1 as [|l tr1 IH]; intros s; simpl; [done|].
  destruct (step l s) as [s1|]; simpl; [apply IH|done].
Qed.

Lemma submit_all fs s :
  stop s = false →
  ∃ tr s' bs,
    run tr s = Some s' ∧ length bs = length fs
    ∧ workers s' = workers s ∧ stop s' = false
    ∧ tasks s' = tasks s ++ bs ∧ pushed s' = pushed s ++ bs
    ∧ popped s' = popped s.
Proof.
  revert s. induction fs as [|f fs IH]; intros s Hstop.
  - exists [], s, []. by rewrite !(right_id _ _).
  - destruct (Submit_enabled s f) as (b & s1 & Hs1).
    pose proof Hs1 as Hspec. apply step_inv in Hspec.
    inversion Hspec as [|? ? Hb Hs| | | | | | | | | | | |]; subst;
      [congruence|].
    match type of Hs1 with _ = Some ?x => set (s1 := x) in * end.
    destruct (IH s1 Hstop) as (tr & s' & bs & Hrun & Hlen & Hws & Hst & Ht & Hp & Hpo).
    exists (Submit b f :: tr), s', (b :: bs). split_and!; try done.
    + simpl. rewrite Hb. simpl in Hs1. rewrite Hb in Hs1.
      injection Hs1 as ->. done.
    + simpl. by rewrite Hlen.
    + rewrite Ht. simpl. by rewrite <- (assoc _).
    + rewrite Hp. simpl. by rewrite <- (assoc _).
Qed.

Lemma pull_all bs : ∀ done s,
  workers s = (Executing <$> done) ++ replicate (length bs) Contending →
  tasks s = bs →
  ∃ tr s',
    run tr s = Some s'
    ∧ workers s' = Executing <$> (done ++ bs)
    ∧ tasks s' = [] ∧ pushed s' = pushed s
    ∧ popped s' = popped s ++ bs.
Proof.
  induction bs as [|b bs IH]; intros done s Hws Ht.
  - exists [], s. simpl in Hws. rewrite !(right_id _ _) in *. done.
  - set (j := length done).
    assert (workers s !! j = Some Contending) as Hj.
    { rewrite Hws. rewrite lookup_app_r; rewrite length_fmap; [|done].
      unfold j. by rewrite Nat.sub_diag. }
    assert (step (Pull j) s = Some
      {| workers := <[j := Executing b]> (workers s);
         tasks := bs; stop := stop s; heap := heap s;
         notifying := notifying s; phase := phase s;
         pushed := pushed s; popped := popped s ++ [b] |}) as Hstep.
    { simpl. rewrite Hj, wait_and_pop_cases, Ht. done. }
    match type of Hstep with _ = Some ?x => set (s1 := x) in * end.
    destruct (IH (done ++ [b]) s1) as (tr & s' & Hrun & Hws' & Ht' & Hp' & Hpo');
      [|done|].
    + simpl. rewrite Hws. unfold j.
      rewrite insert_app_r_alt; rewrite length_fmap; [|done].
      rewrite Nat.sub_diag. simpl. rewrite fmap_app. simpl.
      by rewrite <- (assoc _).
    + exists (Pull j :: tr), s'. split_and!; try done.
      * change (run (Pull j :: tr) s) with (step (Pull j) s ≫= run tr).
        by rewrite Hstep.
      * by rewrite Hws', <- (assoc _).
      * rewrite Hpo'. simpl. by rewrite <- (assoc _).
Qed.

(** X11.  As many tasks as the pool has workers can be running at the
    same time: there is a run after which each worker is inside the
    callable of one of the tasks submitted, and the queue is empty. *)
Theorem tasks_run_in_parallel n fs :
  length fs = n →
  ∃ tr (s : ThreadPool R),
    run tr (ThreadPool_new n) = Some s
    ∧ length (pushed s) = n
    ∧ workers s = Executing <$> pushed s
    ∧ executing (workers s) = pushed s
    ∧ tasks s = [].
Proof.
  intros Hlen.
  destruct (submit_all fs (ThreadPool_new n) eq_refl)
    as (tr1 & s1 & bs & Hrun1 & Hbs & Hws1 & _ & Ht1 & Hp1 & Hpo1).
  simpl in Hws1, Ht1, Hp1, Hpo1.
  destruct (pull_all bs [] s1) as (tr2 & s2 & Hrun2 & Hws2 & Ht2 & Hp2 & _);
    [|done|].
  { rewrite Hws1. simpl. f_equal. lia. }
  exists (tr1 ++ tr2), s2. split_and!; try done.
  - rewrite run_app, Hrun1. done.
  - rewrite Hp2, Hp1. lia.
  - by rewrite Hws2, Hp2, Hp1.
  - rewrite Hws2, Hp2, Hp1. simpl. unfold executing.
    clear. induction bs as [|b bs IH]; [done|].
    rewrite fmap_cons. simpl. f_equal. apply IH.
Qed.

(** X12.  With two workers or more the order of completion is free:
    there is a run in which the second task pushed is done, with the
    result of its callable, while the first is still running. *)
Theorem later_task_may_finish_first n (fA fB : callable R) :
  2 ≤ n → terminates fB →
  ∃ tr (s : ThreadPool R),
    run tr (ThreadPool_new n) = Some s
    ∧ pushed s = [0; 1]
    ∧ workers s !! 0 = Some (Executing 0) ∧ future_get s 0 = Blocks
    ∧ future_get s 1 = expected fB ∧ future_get s 1 ≠ Blocks.
Proof.
  intros Hn HB. destruct n as [|[|k]]; [lia..|].
  exists [Submit 0 fA; Submit 1 fB; Pull 0; Pull 1; Run 1].
  unfold terminates in HB. unfold expected.
  destruct (fB tt) as [v|e|] eqn:HfB; [| |done].
  - destruct (run [Submit 0 fA; Submit 1 fB; Pull 0; Pull 1; Run 1]
               (ThreadPool_new (S (S k)))) as [s|] eqn:Hrun;
      vm_compute in Hrun; rewrite HfB in Hrun; [|done].
    exists s. split; [done|]. injection Hrun as <-.
    split_and!; try done; vm_compute; done.
  - destruct (run [Submit 0 fA; Submit 1 fB; Pull 0; Pull 1; Run 1]
               (ThreadPool_new (S (S k)))) as [s|] eqn:Hrun;
      vm_compute in Hrun; rewrite HfB in Hrun; [|done].
    exists s. split; [done|]. injection Hrun as <-.
    split_and!; try done; vm_compute; done.
Qed.

(** The tasks being run, across a step. *)
Lemma length_executing_insert (ws : list worker) j w w' :
  ws !! j = Some w →
  length (executing (<[j := w']> ws)) + length (executing [w])
  = length (executing ws) + length (executing [w']).
Proof.
  unfold executing, omap.
  revert j. induction ws as [|w0 ws IH]; intros [|j] Hj; simplify_eq/=.
  - destruct w, w'; simpl; lia.
  - specialize (IH _ Hj). destruct w0, w, w'; simpl in *; lia.
Qed.

Lemma executing_notify_all (ws : list worker) :
  executing (notify_all ws) = executing ws.
Proof.
  unfold executing, notify_all, omap.
  induction ws as [|w ws IH]; [done|]. rewrite fmap_cons.
  destruct w; simpl; by rewrite ?IH.
Qed.

Lemma step_run_balance l s s' :
  step l s = Some s' →
  (if is_run l then 1 else 0) + length (executing (workers s'))
    + length (popped s)
  = length (popped s') + length (executing (workers s)).
Proof.
  intros H. step_cases H; rewrite ?length_app, ?executing_notify_all;
    simpl; try lia.
  all: try (pose proof (length_executing_insert _ _ _ Contending Hi));
       try (pose proof (length_executing_insert _ _ _ Waiting Hi));
       try (pose proof (length_executing_insert _ _ _ Exited Hi));
       try (pose proof (length_executing_insert _ _ _ Crashed Hi));
       try (pose proof (length_executing_insert _ _ _ (Executing t) Hi));
       simpl in *; lia.
Qed.

(** X14.  In every run from construction each task popped is called
    once: the calls of line 82 that have returned, and those in
    progress, are as many as the tasks popped. *)
Theorem every_pop_is_run_once n tr s :
  run tr (ThreadPool_new n) = Some s →
  run_calls tr + length (executing (workers s)) = length (popped s).
Proof.
  assert (∀ tr s0 s, run tr s0 = Some s →
    run_calls tr + length (executing (workers s)) + length (popped s0)
    = length (popped s) + length (executing (workers s0))) as Hgen.
  { clear. induction tr as [|l tr IH]; intros s0 s Hrun; simpl in Hrun.
    - simplify_eq. unfold run_calls. simpl. lia.
    - destruct (step l s0) as [s1|] eqn:Hstep; [|done]. simpl in Hrun.
      pose proof (step_run_balance _ _ _ Hstep). specialize (IH _ _ Hrun).
      unfold run_calls in *. rewrite filter_cons.
      destruct (is_run l); case_decide; simpl in *; try done; lia. }
  intros Hrun. specialize (Hgen _ _ _ Hrun). simpl in Hgen.
  assert (executing (replicate n Contending) = []) as Hnil.
  { unfold executing, omap. clear. induction n; [done|]. simpl. done. }
  rewrite Hnil in Hgen. simpl in Hgen. lia.
Qed.

End More.

(** ** [example.cpp] and runs of small pools *)

Local Open Scope Z_scope.





(** One worker does not help the task queued behind one that never
    returns: it is never popped, its future blocks in every state of
    every run, and the body of the destructor never returns. *)
Lemma diverging_task_blocks_the_next :
  ∃ s1 : ThreadPool Z,
    run stuck_run (ThreadPool_new 1) = Some s1
    ∧ pushed s1 = [0; 1]%nat
    ∧ ∀ tr s, run tr s1 = Some s →
        (1%nat ∉ popped s) ∧ future_get s 1 = Blocks
        ∧ phase s ≠ Returned.
Proof.
  eexists. split; [vm_compute; reflexivity|]. split; [reflexivity|].
  set (stuck := {| callee := (λ _, Diverges) : callable Z; result := Pending |}).
  set (J := λ s : ThreadPool Z,
    Inv 1 s ∧ heap s !! 0%nat = Some stuck
    ∧ (∃ more, pushed s = 0%nat :: 1%nat :: more)
    ∧ (popped s = []
       ∨ (popped s = [0%nat] ∧ workers s !! 0%nat = Some (Executing 0)))).
  assert (∀ l s s', J s → step l s = Some s' → J s') as Hstep.
  { intros l s s' (HI & Hh & [more Hpre] & Hpop) H.
    assert (Inv 1 s') as HI' by (by eapply step_preserves_Inv).
    assert (∀ j w, workers s !! j = Some w → j = 0%nat) as Hone.
    { intros j w Hj. apply lookup_lt_Some in Hj.
      rewrite (inv_len _ _ HI) in Hj. lia. }
    pose proof (inv_fifo _ _ HI) as Hfifo. rewrite Hpre in Hfifo.
    split; [done|]. clear HI'.
    step_cases H.
    - split_and!; [done|by exists more|done].
    - split_and!.
      + rewrite lookup_insert_ne; [done|congruence].
      + exists (more ++ [a]). by rewrite Hpre.
      + done.
    - pose proof (Hone _ _ Hi) as ->. split_and!; [done|by exists more|].
      destruct Hpop as [?|[? ?]]; [by left|congruence].
    - split_and!; [done|by exists more|done].
    - rewrite Ht, (right_id _ _) in Hfifo.
      destruct Hpop as [Hq|[Hq _]]; rewrite Hq in Hfifo; done.
    - rewrite Ht, (right_id _ _) in Hfifo.
      destruct Hpop as [Hq|[Hq _]]; rewrite Hq in Hfifo; done.
    - pose proof (Hone _ _ Hi) as ->. split_and!; [done|by exists more|].
      destruct Hpop as [Hq|[_ ?]]; [|congruence].
      rewrite Hq, Ht in Hfifo. simpl in Hfifo. injection Hfifo as <- _.
      right. rewrite Hq. split; [done|].
      apply list_lookup_insert_eq. by eapply lookup_lt_Some.
    - exfalso. destruct Hpop as [Hq|[_ Hw]].
      + destruct (inv_exec _ _ HI _ _ Hi) as [Hin _]. rewrite Hq in Hin.
        by apply elem_of_nil in Hin.
      + pose proof (Hone _ _ Hi) as ->. by simplify_eq.
    - exfalso. destruct Hpop as [Hq|[_ Hw]].
      + destruct (inv_exec _ _ HI _ _ Hi) as [Hin _]. rewrite Hq in Hin.
        by apply elem_of_nil in Hin.
      + pose proof (Hone _ _ Hi) as ->. simplify_eq.
        destruct Hc as [?|(p & e & Hp' & He)]; by simplify_eq.
    - pose proof (Hone _ _ Hi) as ->. split_and!; [done|by exists more|].
      destruct Hpop as [?|[? ?]]; [by left|congruence].
    - split_and!; [done|by exists more|done].
    - split_and!; [done|by exists more|].
      destruct Hpop as [?|[? ?]]; [by left|right]. split; [done|].
      by apply lookup_notify_all_Executing.
    - split_and!; [done|by exists more|done].
    - split_and!; [done|by exists more|done]. }
  assert (∀ tr s s', J s → run tr s = Some s' → J s') as Hruns.
  { induction tr as [|l tr IH]; intros s s' HJ Hrun; simpl in Hrun.
    - by simplify_eq.
    - destruct (step l s) as [s1|] eqn:H1; [|done]. simpl in Hrun.
      eapply IH; [|done]. by eapply Hstep. }
  intros tr s Hrun.
  match type of Hrun with run _ ?s1 = _ => assert (J s1) as HJ1 end.
  { split_and!.
    - apply (run_Inv 1 stuck_run (ThreadPool_new 1)); [apply Inv_new|].
      vm_compute. reflexivity.
    - reflexivity.
    - by exists [].
    - by left. }
  destruct (Hruns _ _ _ HJ1 Hrun) as (HI & _ & [more Hp] & Hpop).
  assert (1%nat ∉ popped s) as Hnot.
  { destruct Hpop as [Hq|[Hq _]]; rewrite Hq.
    - apply not_elem_of_nil.
    - intros Hin. apply elem_of_cons in Hin as [?|Hin]; [done|].
      by apply elem_of_nil in Hin. }
  split_and!; [done| |].
  - assert (1%nat ∈ pushed s) as Hin by (rewrite Hp; right; left).
    destruct (inv_alloc _ _ HI _ Hin) as [q Hq].
    unfold future_get. rewrite Hq. destruct (result q) eqn:Hr; [done|..].
    all: destruct Hnot; eapply (inv_done _ _ HI); [done|by rewrite Hr].
  - intros Hph. apply Hnot.
    assert (tasks s = []) as Hnil.
    { assert (0 < length (workers s))%nat as Hlt
        by (rewrite (inv_len _ _ HI); lia).
      destruct (lookup_lt_is_Some_2 _ _ Hlt) as [w Hw].
      pose proof (inv_returned _ _ HI Hph _ _ Hw) as ->.
      by apply (inv_exited _ _ HI) in Hw as [_ ?]. }
    pose proof (inv_fifo _ _ HI) as Hfifo.
    rewrite Hnil, (right_id _ _) in Hfifo. rewrite <- Hfifo, Hp.
    right. left.
Qed.

(** C1 on a pool whose destructor has set [stop]. *)
Lemma enqueue_on_stopped_pool_witness :
  ∃ s : ThreadPool Z,
    run [DtorStop] (ThreadPool_new 2) = Some s
    ∧ stop s = true
    ∧ enqueue 0 (square_task 3) s
      = (inl (runtime_error "enqueue on stopped ThreadPool"), s).
Proof.
  eexists. split; [vm_compute; reflexivity|]. split; [reflexivity|].
  match goal with |- enqueue _ _ ?s = _ =>
    destruct (enqueue_on_stopped_pool s 0%nat (square_task 3) eq_refl)
      as (Hres & _ & _ & _ & _ & Hsame) end.
  destruct (Hsame eq_refl) as [Hstate _].
  apply injective_projections; [exact Hres|exact Hstate].
Defined.

(** C2 fails without workers: the body of the destructor has returned
    and the task that was pushed has never been popped, so it was never
    executed; all its future gets, when the members are destroyed, is a
    broken promise. *)
Lemma shutdown_without_workers_abandons :
  ∃ s s' : ThreadPool Z,
    run no_worker_run (ThreadPool_new 0) = Some s
    ∧ reachable 0 s
    ∧ phase s = Returned
    ∧ pushed s = [0%nat] ∧ popped s = []
    ∧ destroy_members s = Some s'
    ∧ future_get s' 0 = Rethrows (future_error "broken_promise").
Proof.
  eexists. eexists. split; [vm_compute; reflexivity|].
  split_and!; try reflexivity.
  apply (run_reachable 0 no_worker_run (ThreadPool_new 0));
    [apply reachable_new|vm_compute; reflexivity].
Qed.

(** C2 on a pool with one worker whose destructor begins while one task
    is running and another is queued: both are run before it returns. *)
Lemma shutdown_drains_witness :
  ∃ s : ThreadPool Z,
    run drain_run (ThreadPool_new 1) = Some s
    ∧ (0 < 1)%nat ∧ reachable 1 s ∧ phase s = Returned
    ∧ pushed s = [0; 1]%nat
    ∧ popped s = pushed s ∧ tasks s = []
    ∧ (∀ b, b ∈ pushed s → future_get s b ≠ Blocks)
    ∧ future_get s 1 = Yields 16
    ∧ ∃ s', destroy_members s = Some s' ∧ heap s' = heap s
            ∧ future_get s' 0 = Yields 9.
Proof.
  eexists. split; [vm_compute; reflexivity|].
  assert (0 < 1)%nat as Hn by lia.
  match goal with |- _ ∧ reachable _ ?s ∧ _ =>
    assert (reachable 1 s) as Hreach
      by (apply (run_reachable 1 drain_run (ThreadPool_new 1));
          [apply reachable_new|vm_compute; reflexivity]);
    destruct (shutdown_drains 1 s Hn Hreach) as (_ & _ & _ & Hd & _)
  end.
  destruct (Hd eq_refl) as (Hready & Hnil & _ & Hpop & Hout & Hheap).
  split_and!; [exact Hn|exact Hreach|reflexivity|reflexivity|exact Hpop
              |exact Hnil|exact Hready| |].
  - destruct (Hout 1%nat) as (q & Hq & _ & Hget); [right; left|].
    rewrite Hget. vm_compute in Hq. injection Hq as <-. reflexivity.
  - eexists. split; [reflexivity|].
    match goal with |- heap ?s' = _ ∧ _ =>
      destruct (Hheap s' eq_refl) as [Hsame Hgets] end.
    split; [exact Hsame|]. rewrite Hgets.
    destruct (Hout 0%nat) as (q & Hq & _ & Hget); [left|].
    rewrite Hget. vm_compute in Hq. injection Hq as <-. reflexivity.
Defined.

(** C3 on a pool of two workers.  With nothing to do the worker goes
    into [wait] and takes no step from there; with [stop] set and
    nothing to do it leaves; with two tasks queued it takes the first. *)
Lemma worker_pull_witness :
  (∃ s' : ThreadPool Z,
     step (Pull 1) (ThreadPool_new 2) = Some s'
     ∧ workers s' !! 1%nat = Some Waiting
     ∧ workers s' !! 0%nat = Some Contending
     ∧ step (Pull 1) s' = None)
  ∧ (∃ s : ThreadPool Z,
       run [DtorStop] (ThreadPool_new 2) = Some s
       ∧ ∃ s', step (Pull 1) s = Some s'
               ∧ workers s' !! 1%nat = Some Exited)
  ∧ (∃ s : ThreadPool Z,
       run [Submit 0 (square_task 3); Submit 1 (square_task 4)]
         (ThreadPool_new 2) = Some s
       ∧ ∃ s', step (Pull 1) s = Some s'
               ∧ workers s' !! 1%nat = Some (Executing 0)
               ∧ tasks s' = [1%nat] ∧ popped s' = [0%nat]).
Proof.
  split_and!.
  - destruct (proj2 (worker_pull (ThreadPool_new 2 : ThreadPool Z) 1%nat)
                eq_refl)
      as (_ & _ & _ & s' & Hstep & _ & Hothers & _ & _ & _ & _ & _ & Hme & _).
    exists s'. split_and!; [done|exact Hme| |].
    + by rewrite (Hothers 0%nat).
    + by destruct (proj1 (worker_pull s' 1%nat) Hme) as (? & _).
  - eexists. split; [vm_compute; reflexivity|].
    match goal with |- ∃ s', step _ ?s = _ ∧ _ =>
      destruct (proj2 (worker_pull s 1%nat) eq_refl)
        as (_ & _ & _ & s' & Hstep & _ & _ & _ & _ & _ & _ & _ & Hme & _) end.
    by exists s'.
  - eexists. split; [vm_compute; reflexivity|].
    match goal with |- ∃ s', step _ ?s = _ ∧ _ =>
      destruct (proj2 (worker_pull s 1%nat) eq_refl)
        as (_ & _ & _ & s' & Hstep & _ & _ & _ & _ & _ & _ & _ & Hme & Ht & Hp)
    end.
    by exists s'.
Defined.

(** C4 on a worker about to return from a task that throws. *)
Lemma task_failure_is_captured_witness :
  ∃ s s' : ThreadPool Z,
    run throwing_run (ThreadPool_new 1) = Some s
    ∧ reachable 1 s
    ∧ workers s !! 0%nat = Some (Executing 0)
    ∧ step (Run 0) s = Some s'
    ∧ workers s' = [Contending]
    ∧ future_get s' 0 = Rethrows (thrown 7).
Proof.
  eexists.
  match goal with |- ∃ s', run _ _ = Some ?s ∧ _ =>
    assert (run throwing_run (ThreadPool_new 1) = Some s) as Hrun
      by (vm_compute; reflexivity);
    pose proof (run_reachable 1 _ _ _ (reachable_new 1) Hrun) as Hreach;
    destruct (task_failure_is_captured 1 s 0%nat 0%nat
                {| callee := λ _, Throws (thrown 7); result := Pending |}
                (thrown 7) Hreach eq_refl eq_refl eq_refl)
      as (s' & Hstep & Hws & _ & _ & _ & Hget & _) end.
  exists s'. split_and!; try done.
Defined.

(** C5 after three pushes and two pops. *)
Lemma fifo_availability_witness :
  ∃ s : ThreadPool Z,
    run [Submit 5 (square_task 1); Submit 3 (square_task 2);
         Submit 4 (square_task 3); Pull 0; Pull 1] (ThreadPool_new 2) = Some s
    ∧ reachable 2 s
    ∧ pushed s = [5; 3; 4]%nat ∧ popped s = [5; 3]%nat ∧ tasks s = [4%nat]
    ∧ pushed s = popped s ++ tasks s
    ∧ (3%nat ∈ popped s → 5%nat ∈ popped s).
Proof.
  eexists.
  match goal with |- run ?tr _ = Some ?s ∧ _ =>
    assert (run tr (ThreadPool_new 2) = Some s) as Hrun
      by (vm_compute; reflexivity);
    pose proof (run_reachable 2 _ _ _ (reachable_new 2) Hrun) as Hreach;
    destruct (fifo_availability 2 s Hreach) as (Hfifo & _ & _ & _ & _ & Hord)
  end.
  split_and!; try done. apply (Hord [] 5%nat [] 3%nat [4%nat]). reflexivity.
Defined.

(** C7 on a run that goes on after [stop] was set. *)
Lemma stop_monotone_witness :
  ∃ s s' : ThreadPool Z,
    run [Submit 0 (square_task 3); DtorStop] (ThreadPool_new 1) = Some s
    ∧ run [Submit 1 (square_task 4); Notify None; Pull 0; DtorNotifyAll] s
      = Some s'
    ∧ stop s = true
    ∧ stop s' = true ∧ pushed s' = pushed s.
Proof.
  eexists. eexists. split; [vm_compute; reflexivity|].
  match goal with |- run ?tr ?s = Some ?s' ∧ _ =>
    assert (run tr s = Some s') as Hrun by (vm_compute; reflexivity);
    destruct (proj2 (proj2 (@stop_monotone Z)) tr s s' Hrun eq_refl)
      as (Hstop & Hpushed & _)
  end.
  split_and!; done.
Defined.

(** C9 on a pool whose two workers are waiting. *)
Lemma push_wakes_one_witness :
  ∃ s s' : ThreadPool Z,
    run [Pull 0; Pull 1; Submit 0 (square_task 3)] (ThreadPool_new 2) = Some s
    ∧ step (Notify (Some 1%nat)) s = Some s'
    ∧ workers s = [Waiting; Waiting]
    ∧ workers s' = <[1%nat := Contending]> (workers s).
Proof.
  eexists. eexists. split; [vm_compute; reflexivity|].
  match goal with |- step ?l ?s = Some ?s' ∧ _ =>
    assert (step l s = Some s') as Hstep by (vm_compute; reflexivity);
    destruct (push_wakes_one s) as (_ & _ & Hone & _);
    destruct (Hone _ _ Hstep) as (_ & _ & _ & Hws)
  end.
  split_and!; done.
Defined.

(** C10 on a pool without workers that holds one task. *)
Lemma zero_thread_pool_witness :
  ∃ s s' s'' : ThreadPool Z,
    run [Submit 0 (square_task 3); Notify None] (ThreadPool_new 0) = Some s
    ∧ reachable 0 s
    ∧ pushed s = [0%nat] ∧ popped s = []
    ∧ future_get s 0 = Blocks
    ∧ run [DtorStop; DtorNotifyAll; DtorReturn] s = Some s'
    ∧ phase s' = Returned ∧ popped s' = []
    ∧ destroy_members s' = Some s''
    ∧ future_get s'' 0 = Rethrows (future_error "broken_promise").
Proof.
  eexists.
  match goal with |- ∃ s' s'', run ?tr _ = Some ?s ∧ _ =>
    assert (run tr (ThreadPool_new 0) = Some s) as Hrun
      by (vm_compute; reflexivity);
    pose proof (run_reachable 0 _ _ _ (reachable_new 0) Hrun) as Hreach;
    destruct (zero_thread_pool s Hreach)
      as (_ & _ & Hpop & _ & Hget & _ & _ & Hdtor)
  end.
  destruct (Hdtor eq_refl) as (s' & Hrun' & Hph & _ & Hpop' & Hgone).
  destruct (Hgone eq_refl) as (s'' & Hs'' & _ & _ & Hget').
  exists s', s''.
  split_and!; [exact Hrun|exact Hreach|reflexivity|exact Hpop|
               |exact Hrun'|exact Hph|exact Hpop'|exact Hs''|].
  - apply Hget; [done|left].
  - apply Hget'. left.
Defined.


(** One worker does not help when the callable never returns. *)
Lemma diverging_task_never_completes :
  ¬ inevitably all_completed
      ([λ _, Diverges] : list (callable Z), ThreadPool_new 1).
Proof.
  apply (never_inevitable _
    (λ c, (Inv 1 c.2
           ∧ (∀ b q, heap c.2 !! b = Some q → callee q tt = Diverges)
           ∧ Forall (λ f, f tt = Diverges) c.1)
          ∧ has_work c)).
  - intros c c' [(HI & Hheap & Hfs) Hwork] Hstep.
    split; [|by eapply owner_step_has_work].
    destruct (owner_step_step _ _ Hstep) as (l & H & Hsub & Hnsub & _).
    split_and!.
    + by eapply step_preserves_Inv.
    + eapply (step_heap_callees (λ f, f tt = Diverges)); [|done..].
      intros b f ->. rewrite (Hsub _ _ eq_refl) in Hfs.
      by apply Forall_cons in Hfs as [? _].
    + destruct l; try (rewrite Hnsub; [done|by intros]).
      rewrite (Hsub _ _ eq_refl) in Hfs.
      by apply Forall_cons in Hfs as [_ ?].
  - intros c ((HI & Hheap & _) & _ & Hleft) [Hnil Hdone].
    destruct Hleft as [?|Hne]; [done|].
    destruct (pushed c.2) as [|b bs] eqn:Hp; [done|].
    assert (b ∈ pushed c.2) as Hb by (rewrite Hp; constructor).
    apply (Hdone b); [constructor|].
    destruct (inv_alloc _ _ HI _ Hb) as [q Hq].
    unfold future_get. rewrite Hq. destruct (result q) eqn:Hr; [done|..].
    all: destruct (inv_done _ _ HI _ _ Hq) as [_ Hag]; [by rewrite Hr|].
    all: unfold outcome_agrees in Hag; rewrite Hr in Hag.
    all: by rewrite (Hheap _ _ Hq) in Hag.
  - split; [|split; [done|by left]].
    split_and!; [apply Inv_new|done|by repeat constructor].
Qed.


(** ** The further properties on runs of small pools *)

(** The state a schedule leads to, and that it is reachable. *)
Ltac reach n tr :=
  match goal with |- context [run tr _ = Some ?s] =>
    assert (run tr (ThreadPool_new n) = Some s) as Hrun
      by (vm_compute; reflexivity);
    pose proof (run_reachable n _ _ _ (reachable_new n) Hrun) as Hreach
  end.

(** X1 on a pool of two workers of which one is busy. *)
Lemma concurrency_is_bounded_witness :
  ∃ s : ThreadPool Z,
    run busy_run (ThreadPool_new 2) = Some s
    ∧ reachable 2 s
    ∧ executing (workers s) = [0%nat]
    ∧ (length (executing (workers s)) ≤ 2)%nat
    ∧ future_get s 0 = Blocks.
Proof.
  eexists. reach 2%nat busy_run.
  destruct (concurrency_is_bounded 2 _ Hreach) as (_ & Hle & _ & Hex).
  split_and!; try done.
Defined.

(** X2 on the same pool, the task in the queue, and on a pool without
    workers whose destructor has returned. *)
Lemma task_is_queued_running_or_done_witness :
  (∃ s : ThreadPool Z,
     run busy_run (ThreadPool_new 2) = Some s
     ∧ reachable 2 s ∧ 1%nat ∈ pushed s
     ∧ 1%nat ∈ tasks s ∧ future_get s 1 = Blocks)
  ∧ (∃ s s' : ThreadPool Z,
       run no_worker_run (ThreadPool_new 0) = Some s
       ∧ reachable 0 s ∧ 0%nat ∈ pushed s
       ∧ destroy_members s = Some s'
       ∧ (0%nat ∉ popped s)
       ∧ future_get s' 0 = Rethrows (future_error "broken_promise")).
Proof.
  split.
  - eexists. reach 2%nat busy_run.
    assert (1%nat ∈ [0; 1]%nat) as Hin by (right; left).
    destruct (task_is_queued_running_or_done 2 _ 1%nat Hreach Hin)
      as [Hlive _].
    destruct Hlive as [(Hq & _ & Hbl)|[(Hq & _)|(Hq & _)]]; [done|..].
    + split_and!; done.
    + destruct Hq. left.
    + destruct Hq. left.
  - eexists. eexists. reach 0%nat no_worker_run.
    assert (0%nat ∈ [0%nat]) as Hin by left.
    destruct (task_is_queued_running_or_done 0 _ 0%nat Hreach Hin)
      as [_ Hdead].
    split; [exact Hrun|]. split; [exact Hreach|]. split; [exact Hin|].
    split; [vm_compute; reflexivity|].
    match goal with |- _ ∧ future_get ?s' _ = _ =>
      destruct (Hdead s' eq_refl) as [_ [(Hpop & _)|(Hnp & Hbroken)]] end.
    + by apply elem_of_nil in Hpop.
    + split; done.
Defined.

(** X3 on the return of a worker from a task that throws, and on the
    destruction of a pool without workers. *)
Lemma only_its_worker_writes_a_future_witness :
  (∃ s s' : ThreadPool Z,
     run throwing_run (ThreadPool_new 1) = Some s
     ∧ step (Run 0) s = Some s'
     ∧ future_get s' 0 ≠ future_get s 0
     ∧ workers s !! 0%nat = Some (Executing 0)
     ∧ tasks s' = tasks s)
  ∧ (∃ s s' : ThreadPool Z,
       run no_worker_run (ThreadPool_new 0) = Some s
       ∧ destroy_members s = Some s'
       ∧ 0%nat ∈ tasks s
       ∧ future_get s 0 = Blocks
       ∧ future_get s' 0 = Rethrows (future_error "broken_promise")).
Proof.
  split.
  - eexists. eexists. split; [vm_compute; reflexivity|].
    match goal with |- step ?l ?s = Some ?s' ∧ _ =>
      assert (step l s = Some s') as Hstep by (vm_compute; reflexivity);
      assert (future_get s' 0 ≠ future_get s 0) as Hne by (vm_compute; done);
      destruct (only_its_worker_writes_a_future s 0%nat
                  {| callee := λ _, Throws (thrown 7); result := Pending |}
                  eq_refl) as (Hsteps & _);
      destruct (Hsteps l s' Hstep Hne) as (j & Hl & Hj & Ht & _)
    end.
    injection Hl as <-. split_and!; done.
  - eexists. eexists. reach 0%nat no_worker_run.
    split; [exact Hrun|]. split; [vm_compute; reflexivity|].
    assert (0%nat ∈ [0%nat]) as Hin by left.
    match goal with |- _ ∧ future_get ?s _ = _ ∧ future_get ?s' _ = _ =>
      destruct (only_its_worker_writes_a_future s 0%nat
                  {| callee := square_task 3; result := Pending |}
                  eq_refl) as (_ & _ & Hdead);
      destruct (Hdead 0%nat s' Hreach eq_refl Hin) as [Hbl Hbroken]
    end.
    split_and!; done.
Defined.

(** X4 on the pool of two workers of which one is busy. *)
Lemma workers_live_until_shutdown_witness :
  ∃ s : ThreadPool Z,
    run busy_run (ThreadPool_new 2) = Some s
    ∧ reachable 2 s ∧ stop s = false
    ∧ ∃ w, workers s !! 1%nat = Some w
           ∧ (w = Contending ∨ w = Waiting ∨ ∃ t, w = Executing t).
Proof.
  eexists. reach 2%nat busy_run.
  destruct (workers_live_until_shutdown 2 _ Hreach) as [Hlive _].
  split_and!; try done. apply (Hlive eq_refl 1%nat). lia.
Defined.

(** X5 on two sleeping workers and a push that has not notified yet. *)
Lemma no_lost_wakeup_witness :
  ∃ s : ThreadPool Z,
    run asleep_run (ThreadPool_new 2) = Some s
    ∧ (0 < 2)%nat ∧ reachable 2 s ∧ tasks s ≠ []
    ∧ waiters (workers s) = 2%nat
    ∧ (0 < notifying s)%nat.
Proof.
  eexists. reach 2%nat asleep_run.
  assert (0 < 2)%nat as Hn by lia.
  match goal with |- _ ∧ _ ∧ _ ∧ tasks ?s ≠ [] ∧ _ =>
    assert (tasks s ≠ []) as Hne by done;
    destruct (no_lost_wakeup 2 s Hn Hreach Hne) as [_ Hall];
    destruct (Hall eq_refl) as [Hnot _]
  end.
  split_and!; done.
Defined.

(** X6 on a pool whose destructor has called [notify_all]. *)
Lemma no_sleep_after_notify_all_witness :
  ∃ s : ThreadPool Z,
    run [Pull 0; Pull 1; DtorStop; DtorNotifyAll] (ThreadPool_new 2) = Some s
    ∧ reachable 2 s ∧ phase s = Joining 0
    ∧ waiters (workers s) = 0%nat.
Proof.
  eexists.
  reach 2%nat ([Pull 0; Pull 1; DtorStop; DtorNotifyAll] : list (label Z)).
  destruct (no_sleep_after_notify_all 2 _ Hreach) as [Hnone _].
  split_and!; [done|done|done|by apply Hnone].
Defined.

(** X7 on the run of the workers after two submissions. *)
Lemma pool_activity_is_bounded_witness :
  ∃ s s' : ThreadPool Z,
    run [Submit 0%nat (square_task 3); Submit 1%nat (square_task 4)]
      (ThreadPool_new 1) = Some s
    ∧ run [Notify None; Pull 0; Run 0; Notify None; Pull 0; Run 0; Pull 0] s
      = Some s'
    ∧ (7 ≤ 2 * notifying s + 4 * length (tasks s)
           + 5 * length (workers s) + 3)%nat.
Proof.
  eexists. eexists. split; [vm_compute; reflexivity|].
  match goal with |- run ?tr ?s = Some ?s' ∧ _ =>
    assert (run tr s = Some s') as Hrun by (vm_compute; reflexivity);
    assert (Forall (λ l : label Z, internal l = true ∨ l = DtorStop) tr)
      as Htr by (repeat constructor; by left);
    pose proof (pool_activity_is_bounded tr s s' Htr Hrun) as Hb
  end.
  split; [done|exact Hb].
Defined.

(** X8 on two sleeping workers: no worker passes, nobody notifies, and
    a spurious wake-up of the first is undone by its next pass. *)
Lemma idle_pool_is_quiescent_witness :
  ∃ s s1 : ThreadPool Z,
    run [Pull 0; Pull 1] (ThreadPool_new 2) = Some s
    ∧ waiters (workers s) = length (workers s)
    ∧ step (Pull 0) s = None ∧ step (Notify None) s = None
    ∧ step (Spurious 0) s = Some s1
    ∧ step (Pull 0) s1 = Some s.
Proof.
  eexists. eexists.
  reach 2%nat ([Pull 0; Pull 1] : list (label Z)).
  split; [exact Hrun|]. split; [reflexivity|].
  match goal with |- step _ ?s = _ ∧ _ =>
    destruct (idle_pool_is_quiescent s eq_refl eq_refl eq_refl)
      as (Hnone & _ & Hspur);
    assert (0 < 2)%nat as Hn by lia;
    destruct (Hspur 2%nat Hn Hreach) as (_ & _ & Hback)
  end.
  split; [by apply (Hnone (Pull 0))|].
  split; [by apply (Hnone (Notify None))|].
  split; [vm_compute; reflexivity|].
  match goal with |- step _ ?s1 = _ =>
    by destruct (Hback 0%nat s1 eq_refl) as (_ & ? & _) end.
Defined.

(** X9 on one worker: two pushes, one [notify_one] made, one owed. *)
Lemma one_notify_per_push_witness :
  ∃ s : ThreadPool Z,
    run half_notified_run (ThreadPool_new 1) = Some s
    ∧ notify_calls half_notified_run = 1%nat
    ∧ notifying s = 1%nat ∧ length (pushed s) = 2%nat.
Proof.
  eexists.
  match goal with |- run ?tr _ = Some ?s ∧ _ =>
    assert (run tr (ThreadPool_new 1) = Some s) as Hrun
      by (vm_compute; reflexivity);
    destruct (one_notify_per_push 1 tr s Hrun) as [Hb _]
  end.
  split_and!; done.
Defined.

(** X10 on one worker that has completed two tasks. *)
Lemma single_worker_completes_in_order_witness :
  ∃ s : ThreadPool Z,
    run serial_run (ThreadPool_new 1) = Some s
    ∧ reachable 1 s ∧ pushed s = [0; 1]%nat
    ∧ future_get s 1 ≠ Blocks ∧ future_get s 0 ≠ Blocks.
Proof.
  eexists. reach 1%nat serial_run.
  match goal with |- _ ∧ _ ∧ _ ∧ future_get ?s _ ≠ _ ∧ _ =>
    assert (future_get s 1 ≠ Blocks) as HB by (vm_compute; done);
    pose proof (single_worker_completes_in_order s [] 0%nat [] 1%nat []
                  Hreach eq_refl HB) as HA
  end.
  split_and!; done.
Defined.

(** X11 on two workers and two tasks. *)
Lemma tasks_run_in_parallel_witness :
  ∃ tr (s : ThreadPool Z),
    run tr (ThreadPool_new 2) = Some s
    ∧ length (pushed s) = 2%nat
    ∧ workers s = Executing <$> pushed s.
Proof.
  destruct (tasks_run_in_parallel 2 [square_task 3; square_task 4] eq_refl)
    as (tr & s & Hrun & Hlen & Hws & _).
  by exists tr, s.
Defined.

(** X12 on two workers. *)
Lemma later_task_may_finish_first_witness :
  ∃ tr (s : ThreadPool Z),
    run tr (ThreadPool_new 2) = Some s
    ∧ pushed s = [0; 1]%nat
    ∧ future_get s 0 = Blocks ∧ future_get s 1 = Yields 16.
Proof.
  assert (2 ≤ 2)%nat as Hn by lia.
  assert (terminates (square_task 4)) as Ht by done.
  destruct (later_task_may_finish_first 2 (square_task 3) (square_task 4)
              Hn Ht) as (tr & s & Hrun & Hp & _ & HA & HB & _).
  by exists tr, s.
Defined.

(** X14 on one worker that has completed two tasks. *)
Lemma every_pop_is_run_once_witness :
  ∃ s : ThreadPool Z,
    run serial_run (ThreadPool_new 1) = Some s
    ∧ run_calls serial_run = 2%nat ∧ length (popped s) = 2%nat.
Proof.
  eexists. reach 1%nat serial_run.
  pose proof (every_pop_is_run_once 1 _ _ Hrun) as Hb.
  split_and!; try done.
Defined.
